(** * pokesprite: the [chop] and [positions] commands

    A shallow embedding of [cmd/chop/main.go] (grid and stylesheet sprite
    extraction) and of the position-table generator ([extractSpritePositions]),
    followed by the properties of the natural-language specification.

    Conventions of the embedding:
    - Go's [int] is the 64-bit two's-complement integer; values are carried
      in [Z] and every arithmetic operator wraps around explicitly.
    - Go strings are byte strings, modelled by [string].
    - The two regular expressions are given as syntax trees and run by a
      backtracking matcher that prefers greedy choices, which is the
      leftmost-first discipline of Go's [regexp] package.
    - Output streams are lists of lines (without the final newline); the
      file system is the list of files created, in creation order.
    - Calls into the operating system and into the image libraries that may
      fail are answered by an environment record [Chop.Env]. *)

From Stdlib Require Import ZArith String Ascii List Lia Bool.
From Stdlib Require Import DecimalString DecimalFacts DecimalPos DecimalN DecimalZ.
From stdpp Require Import base option list gmap strings.

Local Open Scope string_scope.
Local Open Scope list_scope.
Local Open Scope Z_scope.

(** ** Go's [int] *)

Module GoInt.

Definition min_int : Z := - 2 ^ 63.
Definition max_int : Z := 2 ^ 63 - 1.

(** Reduction of a mathematical integer to the 64-bit signed range. *)
Definition wrap (z : Z) : Z := (z + 2 ^ 63) mod 2 ^ 64 - 2 ^ 63.

Definition in_range (z : Z) : Prop := min_int <= z <= max_int.

Definition add (a b : Z) : Z := wrap (a + b).
Definition sub (a b : Z) : Z := wrap (a - b).
Definition mul (a b : Z) : Z := wrap (a * b).
Definition neg (a : Z) : Z := wrap (- a).

(** [a / b]: truncated towards zero; [None] is the run-time panic
    "integer divide by zero".  [min_int / -1] wraps to [min_int]. *)
Definition quo (a b : Z) : option Z :=
  if b =? 0 then None else Some (wrap (Z.quot a b)).

(** [a % b]: the remainder has the sign of the dividend. *)
Definition rem (a b : Z) : option Z :=
  if b =? 0 then None else Some (wrap (Z.rem a b)).

End GoInt.

(** ** The parts of [strings], [strconv] and [fmt] that the programs use *)

Module GoStr.

(** [strings.HasPrefix] *)
Definition HasPrefix (s p : string) : bool := String.prefix p s.

(** [strings.TrimPrefix] *)
Definition TrimPrefix (s p : string) : string :=
  if String.prefix p s
  then String.substring (String.length p) (String.length s - String.length p) s
  else s.

(** [strings.HasSuffix] *)
Definition HasSuffix (s p : string) : bool :=
  let n := String.length s in
  let k := String.length p in
  (k <=? n)%nat && String.eqb (String.substring (n - k) k s) p.

(** [strings.Split] with a one-byte separator. *)
Fixpoint Split (s : string) (sep : ascii) : list string :=
  match s with
  | EmptyString => [EmptyString]
  | String a s' =>
      if Ascii.eqb a sep then EmptyString :: Split s' sep
      else match Split s' sep with
           | h :: t => String a h :: t
           | [] => [String a EmptyString]
           end
  end.

(** [strconv.Itoa] *)
Definition Itoa (z : Z) : string := NilZero.string_of_int (Z.to_int z).

(** [strconv.Atoi] with the error dropped: the value Go returns next to
    the error is [0] for a syntax error and the nearest bound of [int]
    for a range error. *)
Definition Atoi (s : string) : Z :=
  let '(negative, body) :=
    match s with
    | String "-" t => (true, t)
    | String "+" t => (false, t)
    | _ => (false, s)
    end in
  match body with
  | EmptyString => 0
  | _ =>
      match NilEmpty.uint_of_string body with
      | Some d =>
          if negative then Z.max (- Z.of_uint d) GoInt.min_int
          else Z.min (Z.of_uint d) GoInt.max_int
      | None => 0
      end
  end.

(** The token [fmt.Sscanf] collects for the verb [%d]: the longest run of
    decimal digits and underscores. *)
Fixpoint scanNumber (s : string) : string :=
  match s with
  | String a s' =>
      if ((48 <=? nat_of_ascii a) && (nat_of_ascii a <=? 57))%nat || Ascii.eqb a "_"
      then String a (scanNumber s')
      else EmptyString
  | EmptyString => EmptyString
  end.

(** [fmt.Sscanf(s, "%d", &n)] on input that does not start with white
    space (the callers pass regexp captures): an optional sign, then the
    number token, converted by [strconv.ParseInt(tok, 10, 64)].  [None]
    is a scan error, which leaves [n] untouched. *)
Definition Sscanf_d (s : string) : option Z :=
  let '(negative, body) :=
    match s with
    | String "-" t => (true, t)
    | String "+" t => (false, t)
    | _ => (false, s)
    end in
  match scanNumber body with
  | EmptyString => None
  | tok =>
      match NilEmpty.uint_of_string tok with
      | Some d =>
          let v := if negative then - Z.of_uint d else Z.of_uint d in
          if (GoInt.min_int <=? v) && (v <=? GoInt.max_int) then Some v else None
      | None => None
      end
  end.

Definition zeros (n : nat) : string := string_of_list_ascii (repeat "0"%char n).

(** [fmt.Sprintf("%03d", z)]: zero padding to width three, the sign
    counting in the width and standing before the padding. *)
Definition Sprintf_03d (z : Z) : string :=
  match Z.to_int z with
  | Decimal.Pos d =>
      let ds := NilZero.string_of_uint d in
      zeros (3 - String.length ds) +:+ ds
  | Decimal.Neg d =>
      let ds := NilZero.string_of_uint d in
      "-" +:+ zeros (2 - String.length ds) +:+ ds
  end.

End GoStr.

(** ** Regular expressions with capture groups *)

Module Regexp.

(** The fragment of RE2 syntax the two patterns are written in.
    Repetition only ever applies to a character class. *)
Inductive re : Type :=
| Lit (l : string)
| Star (c : ascii -> bool)
| Plus (c : ascii -> bool)
| Opt (r : re)
| Grp (n : nat) (r : re)
| Cat (r1 r2 : re).

(** Submatches, indexed by group number; a group that did not take part
    in the match holds the empty string. *)
Abbreviation caps := (list string).

Fixpoint dropPrefix (l s : string) : option string :=
  match l, s with
  | EmptyString, _ => Some s
  | String a l', String b s' => if Ascii.eqb a b then dropPrefix l' s' else None
  | String _ _, EmptyString => None
  end.

(** The text consumed between the input [s] and its suffix [s']. *)
Definition taken (s s' : string) : string :=
  String.substring 0 (String.length s - String.length s') s.

Fixpoint star (c : ascii -> bool) (s : string) (k : string -> option caps)
  : option caps :=
  match s with
  | String a s' =>
      if c a then
        match star c s' k with
        | Some out => Some out
        | None => k s
        end
      else k s
  | EmptyString => k s
  end.

Fixpoint matchRe (r : re) (s : string) (cs : caps)
    (k : string -> caps -> option caps) : option caps :=
  match r with
  | Lit l =>
      match dropPrefix l s with
      | Some s' => k s' cs
      | None => None
      end
  | Star c => star c s (fun s' => k s' cs)
  | Plus c =>
      match s with
      | String a s' => if c a then star c s' (fun s'' => k s'' cs) else None
      | EmptyString => None
      end
  | Opt r1 =>
      match matchRe r1 s cs k with
      | Some out => Some out
      | None => k s cs
      end
  | Grp n r1 => matchRe r1 s cs (fun s' cs' => k s' (<[n := taken s s']> cs'))
  | Cat r1 r2 => matchRe r1 s cs (fun s' cs' => matchRe r2 s' cs' k)
  end.

Definition matchAt (groups : nat) (r : re) (s : string) : option caps :=
  matchRe r s (replicate (S groups) EmptyString)
    (fun s' cs => Some (<[0%nat := taken s s']> cs)).

(** The method [FindStringSubmatch] of a compiled pattern: the leftmost match; [None] is Go's
    [nil]. *)
Fixpoint FindStringSubmatch (groups : nat) (r : re) (s : string) : option caps :=
  match matchAt groups r s with
  | Some out => Some out
  | None =>
      match s with
      | String _ s' => FindStringSubmatch groups r s'
      | EmptyString => None
      end
  end.

(** Character classes. *)
Definition between (lo hi : nat) (a : ascii) : bool :=
  ((lo <=? nat_of_ascii a) && (nat_of_ascii a <=? hi))%nat.

(** [\s] is [[\t\n\f\r ]]. *)
Definition space (a : ascii) : bool :=
  let n := nat_of_ascii a in
  ((n =? 9) || (n =? 10) || (n =? 12) || (n =? 13) || (n =? 32))%nat.

(** [\d] *)
Definition digit (a : ascii) : bool := between 48 57 a.

Definition lower (a : ascii) : bool := between 97 122 a.

(** The submatch [m[i]]. *)
Definition sub (m : caps) (i : nat) : string := default EmptyString (m !! i).

Fixpoint seq (rs : list re) : re :=
  match rs with
  | [] => Lit EmptyString
  | [r] => r
  | r :: rs' => Cat r (seq rs')
  end.

End Regexp.

(** ** The world the commands act on *)

Module IO.

(** A decoded image, as far as the programs look at it: its bounds start
    at the origin and span [Dx] by [Dy] pixels. *)
Record Image : Type := { Dx : Z; Dy : Z }.

(** What [draw.Draw] copies into a fresh image: a rectangle of the
    given size, read from the source image at [(srcX, srcY)]. *)
Record Crop : Type := { srcX : Z; srcY : Z; cropW : Z; cropH : Z }.

(** A file made by [os.Create]; [fimage] is [None] while nothing has
    been encoded into it. *)
Record File : Type := { fpath : string; fimage : option Crop }.

Record World : Type :=
  { files : list File; stdout : list string; stderr : list string }.

Definition println (line : string) (wd : World) : World :=
  {| files := files wd; stdout := stdout wd ++ [line]; stderr := stderr wd |}.

Definition eprintln (line : string) (wd : World) : World :=
  {| files := files wd; stdout := stdout wd; stderr := stderr wd ++ [line] |}.

Definition addFile (f : File) (wd : World) : World :=
  {| files := files wd ++ [f]; stdout := stdout wd; stderr := stderr wd |}.

(** How a command ends. *)
Inductive Outcome : Type :=
| Returned (wd : World)
| Panicked (wd : World)
| Exited (code : Z) (wd : World).

(** One pass of a loop body: go on with a new state, or panic. *)
Inductive Step (S : Type) : Type :=
| Next (s : S)
| Abort (wd : World).
Arguments Next {S} s.
Arguments Abort {S} wd.

(** [for _, a := range l { body }] *)
Fixpoint forEach {A S : Type} (body : A -> S -> Step S) (l : list A) (s : S)
  : Step S :=
  match l with
  | [] => Next s
  | a :: l' =>
      match body a s with
      | Next s' => forEach body l' s'
      | Abort wd => Abort wd
      end
  end.

End IO.

(** ** [cmd/chop/main.go] *)

Module Chop.
Import GoStr Regexp IO.

Record Pokemon : Type :=
  { ID : Z;
    Form : option string;
    Skip : bool;
    SkipCount : Z }.

Record Data : Type :=
  { Filename : string;
    Columns : Z;
    Rows : Z;
    Outline : Z;
    Padding : Z;
    Suffix : option string;
    PokemonList : list Pokemon }.

(** Answers of the operating system and of the libraries. *)
Record Env : Type :=
  { ReadFile : string -> option string;   (* ioutil.ReadFile *)
    Unmarshal : string -> option Data;    (* json.Unmarshal into a Data *)
    Open : string -> option string;       (* os.Open, giving the content *)
    Decode : string -> option Image;      (* image.Decode *)
    Dir : string -> string;               (* filepath.Dir *)
    Join : string -> string -> string;    (* filepath.Join *)
    NewRGBA_ok : Z -> Z -> bool;          (* image.NewRGBA does not panic *)
    Create_ok : string -> bool;           (* os.Create succeeds *)
    Encode_ok : Z -> Z -> bool }.         (* the png encoder succeeds *)

Definition atoi (s : string) : Z := default 0 (Sscanf_d s).

(** [[^\s{]] *)
Definition selectorChar (a : ascii) : bool :=
  negb (space a || Ascii.eqb a "{").

Definition number : re := Plus digit.
Definition signedNumber : re := Cat (Opt (Lit "-")) (Plus digit).

(** The pattern compiled in [chopFromSCSS]; it has five groups. *)
Definition lineRE : re :=
  seq [ Lit ".pkicon.pkicon-"; Grp 1 (Plus selectorChar); Star space;
        Lit "{"; Star space;
        Lit "width:"; Star space; Grp 2 number; Lit "px;"; Star space;
        Lit "height:"; Star space; Grp 3 number; Lit "px;"; Star space;
        Lit "background-position:"; Star space; Grp 4 signedNumber; Lit "px";
        Star space; Grp 5 signedNumber; Lit "px;" ].

(** The local variables of [scssSelectorToFilename]. *)
Record Identity : Type :=
  { id : string; form : string; gameFamily : string; shiny : bool }.

(** The body of the loop over the segments: the [switch]. *)
Definition classify (v : Identity) (s : string) : Identity :=
  if String.eqb s "color-shiny" then
    {| id := id v; form := form v; gameFamily := gameFamily v; shiny := true |}
  else if HasPrefix s "form-" then
    {| id := id v; form := TrimPrefix s "form-";
       gameFamily := gameFamily v; shiny := shiny v |}
  else if HasPrefix s "game-family-" then
    {| id := id v; form := form v;
       gameFamily := TrimPrefix s "game-family-"; shiny := shiny v |}
  else if HasPrefix s "pkicon-" then v
  else
    {| id := s; form := form v; gameFamily := gameFamily v; shiny := shiny v |}.

Definition noIdentity : Identity :=
  {| id := ""; form := ""; gameFamily := ""; shiny := false |}.

Definition resolve (parts : string) : Identity :=
  fold_left classify (Split parts ".") noIdentity.

(** The statements after the loop. *)
Definition filenameOf (v : Identity) : string :=
  if String.eqb (id v) "" then ""
  else if String.eqb (id v) "ball-love" then "love-ball.png"
  else
    let name := id v in
    let name := if shiny v then name +:+ "-shiny" else name in
    let name :=
      if negb (String.eqb (gameFamily v) "") then name +:+ "-" +:+ gameFamily v
      else name in
    let name :=
      if negb (String.eqb (form v) "") then name +:+ "-" +:+ form v else name in
    name +:+ ".png".

Definition scssSelectorToFilename (parts : string) : string :=
  filenameOf (resolve parts).

Definition skipMessage (outName : string) (x y w h : Z) : string :=
  "chop: skip " +:+ outName +:+ " (bounds " +:+ Itoa x +:+ "," +:+ Itoa y
    +:+ " " +:+ Itoa w +:+ "x" +:+ Itoa h +:+ " outside image)".

(** The body of the loop over the lines of the stylesheet. *)
Definition scssLine (env : Env) (img : Image) (line : string) (wd : World)
  : Step World :=
  match FindStringSubmatch 5 lineRE line with
  | None => Next wd
  | Some matches =>
      let selectorParts := sub matches 1 in
      let w := atoi (sub matches 2) in
      let h := atoi (sub matches 3) in
      let bgX := atoi (sub matches 4) in
      let bgY := atoi (sub matches 5) in
      let outName := scssSelectorToFilename selectorParts in
      if String.eqb outName "" then Next wd
      else
        let sx := GoInt.neg bgX in
        let sy := GoInt.neg bgY in
        if (sx <? 0) || (sy <? 0) || (GoInt.add sx w >? Dx img)
           || (GoInt.add sy h >? Dy img)
        then Next (eprintln (skipMessage outName sx sy w h) wd)
        else if negb (NewRGBA_ok env w h) then Abort wd
        else
          let outPath := Join env "images" outName in
          let crop := {| srcX := sx; srcY := sy; cropW := w; cropH := h |} in
          if negb (Create_ok env outPath) then Abort wd
          else if negb (Encode_ok env w h)
          then Abort (addFile {| fpath := outPath; fimage := None |} wd)
          else Next (addFile {| fpath := outPath; fimage := Some crop |} wd)
  end.

Definition scssLoop (env : Env) (img : Image) (lines : list string) (wd : World)
  : Step World :=
  forEach (scssLine env img) lines wd.

Definition newline : ascii := ascii_of_nat 10.

Definition chopFromSCSS (env : Env) (scssPath : string) (wd : World) : Outcome :=
  let dir := Dir env scssPath in
  let pngPath := Join env dir "pokesprite.png" in
  match ReadFile env scssPath with
  | None => Panicked wd
  | Some raw =>
      match Open env pngPath with
      | None => Panicked wd
      | Some imgFile =>
          match Decode env imgFile with
          | None => Panicked wd
          | Some img =>
              match scssLoop env img (Split raw newline) wd with
              | Next wd' => Returned wd'
              | Abort wd' => Panicked wd'
              end
          end
      end
  end.

(** The name built at the end of the loop body of [chopFromJSON]. *)
Definition jsonOutName (data : Data) (pokemon : Pokemon) : string :=
  let outName := "./images/" +:+ Sprintf_03d (ID pokemon) in
  let outName :=
    match Suffix data with
    | Some suffix => outName +:+ "-" +:+ suffix
    | None => outName
    end in
  let outName :=
    match Form pokemon with
    | Some f => outName +:+ "-" +:+ f
    | None => outName
    end in
  outName +:+ ".png".

(** The body of the loop over [data.Pokemon]; the state is
    [spriteIndex] and the world. *)
Definition jsonEntry (env : Env) (data : Data) (width height : Z)
    (pokemon : Pokemon) (st : Z * World) : Step (Z * World) :=
  let '(spriteIndex, wd) := st in
  if Skip pokemon then
    let skipCount := if SkipCount pokemon =? 0 then 1 else SkipCount pokemon in
    Next (GoInt.add spriteIndex skipCount, wd)
  else
    match GoInt.quo spriteIndex (Columns data),
          GoInt.rem spriteIndex (Columns data) with
    | Some row, Some column =>
        let w := GoInt.sub width (GoInt.mul 2 (Padding data)) in
        let h := GoInt.sub height (GoInt.mul 2 (Padding data)) in
        if negb (NewRGBA_ok env w h) then Abort wd
        else
          let crop :=
            {| srcX := GoInt.add (GoInt.add (GoInt.mul column height)
                                    (GoInt.mul (GoInt.add column 1) (Outline data)))
                         (Padding data);
               srcY := GoInt.add (GoInt.add (GoInt.mul row width)
                                    (GoInt.mul (GoInt.add row 1) (Outline data)))
                         (Padding data);
               cropW := w; cropH := h |} in
          let outName := jsonOutName data pokemon in
          if negb (Create_ok env outName) then Abort wd
          else if negb (Encode_ok env w h)
          then Abort (addFile {| fpath := outName; fimage := None |} wd)
          else Next (GoInt.add spriteIndex 1,
                     addFile {| fpath := outName; fimage := Some crop |} wd)
    | _, _ => Abort wd
    end.

(** [spriteIndex := 0] and the loop. *)
Definition jsonLoop (env : Env) (data : Data) (width height : Z)
    (l : list Pokemon) (wd : World) : Step (Z * World) :=
  forEach (jsonEntry env data width height) l (0, wd).

Definition cellHeight (data : Data) (img : Image) : option Z :=
  GoInt.quo (GoInt.sub (Dy img) (GoInt.mul (GoInt.add (Rows data) 1) (Outline data)))
    (Rows data).

Definition cellWidth (data : Data) (img : Image) : option Z :=
  GoInt.quo (GoInt.sub (Dx img) (GoInt.mul (GoInt.add (Columns data) 1) (Outline data)))
    (Columns data).

Definition chopFromJSON (env : Env) (filename : string) (wd : World) : Outcome :=
  match ReadFile env filename with
  | None => Panicked wd
  | Some raw =>
      match Unmarshal env raw with
      | None => Panicked wd
      | Some data =>
          match Open env (Filename data) with
          | None => Panicked wd
          | Some spritesheet =>
              match Decode env spritesheet with
              | None => Panicked wd
              | Some img =>
                  match cellHeight data img with
                  | None => Panicked wd
                  | Some height =>
                      match cellWidth data img with
                      | None => Panicked wd
                      | Some width =>
                          match jsonLoop env data width height (PokemonList data) wd with
                          | Next (_, wd') => Returned wd'
                          | Abort wd' => Panicked wd'
                          end
                      end
                  end
              end
          end
      end
  end.

Definition usage : list string :=
  [ "Usage: task chop -- <filename.json|filename.scss>";
    "  JSON: task chop -- ./data/spritesheet.json";
    "  SCSS: task chop -- toExtractFrom/pokesprite.scss" ].

(** [args] is [os.Args]: the program name, then the arguments. *)
Definition main (env : Env) (args : list string) (wd : World) : Outcome :=
  if negb (length args =? 2)%nat then
    Exited 1 (fold_left (fun wd' line => println line wd') usage wd)
  else
    let filename := nth 1 args "" in
    if HasSuffix filename ".scss" then chopFromSCSS env filename wd
    else chopFromJSON env filename wd.

End Chop.

(** ** The position-table generator *)

Module Positions.
Import GoStr Regexp.

Record SpritePosition : Type :=
  { Width : Z; Height : Z; BackgroundPosition : string }.

Definition atoi (s : string) : Z := Atoi s.

(** [[a-z0-9_-]] *)
Definition nameChar (a : ascii) : bool :=
  lower a || digit a || Ascii.eqb a "_" || Ascii.eqb a "-".

(** [[a-z_-]] *)
Definition colorChar (a : ascii) : bool :=
  lower a || Ascii.eqb a "_" || Ascii.eqb a "-".

Definition signedNumber : re := Cat (Opt (Lit "-")) (Plus digit).

(** The package-level pattern; it has eight groups. *)
Definition lineRE : re :=
  seq [ Lit ".pkicon.pkicon-"; Grp 1 (Plus digit);
        Opt (Cat (Lit ".form-") (Grp 2 (Plus nameChar)));
        Opt (Cat (Lit ".game-family-") (Grp 3 (Plus nameChar)));
        Opt (Cat (Lit ".color-") (Grp 4 (Plus colorChar)));
        Star space; Lit "{"; Star space;
        Lit "width:"; Star space; Grp 5 (Plus digit); Lit "px;"; Star space;
        Lit "height:"; Star space; Grp 6 (Plus digit); Lit "px;"; Star space;
        Lit "background-position:"; Star space; Grp 7 signedNumber; Lit "px";
        Plus space; Grp 8 signedNumber; Lit "px;"; Star space; Lit "}" ].

(** The key computed from the submatches of one line. *)
Definition keyOf (m : caps) : string :=
  let pokemonID := sub m 1 in
  let form := sub m 2 in
  let gameFamily := sub m 3 in
  let color := sub m 4 in
  let key := "pokemon-" +:+ Itoa (atoi pokemonID) in
  let key := if negb (String.eqb form "") then key +:+ "-" +:+ form else key in
  let key :=
    if negb (String.eqb gameFamily "") then key +:+ "-" +:+ gameFamily else key in
  let key := if String.eqb color "shiny" then key +:+ "-shiny" else key in
  key.

(** The record stored under the key. *)
Definition positionOf (m : caps) : SpritePosition :=
  let width := atoi (sub m 5) in
  let height := atoi (sub m 6) in
  let xPos := sub m 7 in
  let yPos := sub m 8 in
  {| Width := width; Height := height;
     BackgroundPosition := xPos +:+ "px " +:+ yPos +:+ "px" |}.

(** The body of the loop over the lines; the state is the map
    [positions] and the slice [order]. *)
Definition extractLine (st : gmap string SpritePosition * list string)
    (line : string) : gmap string SpritePosition * list string :=
  match FindStringSubmatch 8 lineRE line with
  | None => st
  | Some m =>
      let key := keyOf m in
      (<[key := positionOf m]> (fst st), snd st ++ [key])
  end.

Definition extractSpritePositions (scss : string)
  : gmap string SpritePosition * list string :=
  fold_left extractLine (Split scss Chop.newline) (∅, []).

End Positions.

(** ** Notions the specification speaks about *)

Module Spec.
Import GoStr Regexp IO Chop.


(** The number of grid slots an entry takes: one for an emitted entry,
    [skipCount] for a skipped one, zero counting as one. *)
Definition slots (p : Pokemon) : Z :=
  if Skip p then (if SkipCount p =? 0 then 1 else SkipCount p) else 1.

(** The grid-slot cursor after the entries [l], starting from [i]. *)
Definition cursorFrom (i : Z) (l : list Pokemon) : Z :=
  fold_left (fun j p => GoInt.wrap (j + slots p)) l i.

(** Per-cell pixel sizes, in truncating integer division. *)
Definition gridCellHeight (data : Data) (img : Image) : Z :=
  GoInt.wrap (Z.quot (GoInt.wrap (Dy img - (Rows data + 1) * Outline data))
                (Rows data)).

Definition gridCellWidth (data : Data) (img : Image) : Z :=
  GoInt.wrap (Z.quot (GoInt.wrap (Dx img - (Columns data + 1) * Outline data))
                (Columns data)).

(** The source rectangle of the cell at cursor index [i]: the column
    index scales by the cell height and the row index by the cell
    width. *)
Definition sourceRect (data : Data) (cellW cellH i : Z) : Crop :=
  let row := GoInt.wrap (Z.quot i (Columns data)) in
  let col := GoInt.wrap (Z.rem i (Columns data)) in
  {| srcX := GoInt.wrap (col * cellH + (col + 1) * Outline data + Padding data);
     srcY := GoInt.wrap (row * cellW + (row + 1) * Outline data + Padding data);
     cropW := GoInt.wrap (cellW - 2 * Padding data);
     cropH := GoInt.wrap (cellH - 2 * Padding data) |}.

(** The sequence of (destination path, source rectangle) pairs of a
    sheet: one per entry that is not skipped, in input order. *)
Fixpoint plan (data : Data) (cellW cellH i : Z) (l : list Pokemon) : list File :=
  match l with
  | [] => []
  | p :: l' =>
      if Skip p then plan data cellW cellH (GoInt.wrap (i + slots p)) l'
      else {| fpath := jsonOutName data p;
              fimage := Some (sourceRect data cellW cellH i) |}
           :: plan data cellW cellH (GoInt.wrap (i + slots p)) l'
  end.

(** A dot-separated segment that is neither the shiny marker nor one of
    the prefixed modifiers. *)
Definition baseSegment (s : string) : bool :=
  negb (String.eqb s "color-shiny") && negb (HasPrefix s "form-")
  && negb (HasPrefix s "game-family-") && negb (HasPrefix s "pkicon-").

(** The world with one more line on the diagnostic stream, at place [n]. *)
Definition withDiagnostic (n : nat) (msg : string) (wd : World) : World :=
  {| files := files wd; stdout := stdout wd;
     stderr := take n (stderr wd) ++ msg :: drop n (stderr wd) |}.


(** All the characters of [s] are in the class [c]. *)
Fixpoint allChars (c : ascii -> bool) (s : string) : bool :=
  match s with
  | EmptyString => true
  | String a s' => c a && allChars c s'
  end.

(** What a successful match of [r] says: the pattern consumes the text
    between [s] and its suffix [s'] and turns the submatches [cs] into
    [cs']. *)
Fixpoint matches (r : re) (s : string) (cs : caps) (s' : string) (cs' : caps)
  : Prop :=
  match r with
  | Lit l => s = l +:+ s' /\ cs' = cs
  | Star c => exists t, s = t +:+ s' /\ allChars c t = true /\ cs' = cs
  | Plus c =>
      exists t, s = t +:+ s' /\ t <> "" /\ allChars c t = true /\ cs' = cs
  | Opt r1 => matches r1 s cs s' cs' \/ (s' = s /\ cs' = cs)
  | Grp n r1 => exists cs1, matches r1 s cs s' cs1 /\ cs' = <[n := taken s s']> cs1
  | Cat r1 r2 =>
      exists s1 cs1, matches r1 s cs s1 cs1 /\ matches r2 s1 cs1 s' cs'
  end.

(** The numbers of the groups of a pattern. *)
Fixpoint groups (r : re) : list nat :=
  match r with
  | Lit _ | Star _ | Plus _ => []
  | Opt r1 => groups r1
  | Grp n r1 => n :: groups r1
  | Cat r1 r2 => groups r1 ++ groups r2
  end.




(** The number a string of decimal digits denotes. *)
Definition decimalValue (s : string) : Z :=
  match NilEmpty.uint_of_string s with
  | Some d => Z.of_uint d
  | None => 0
  end.

(** A run of [chopFromJSON] whose input files are there, whose
    description is valid ([Rows] and [Columns] are not zero) and whose
    image and file operations succeed.  Nothing is asked of the place of
    the rectangles in the image. *)
Record GridRun (env : Env) (filename : string) (data : Data) (img : Image)
    : Prop :=
  { run_read : exists raw, ReadFile env filename = Some raw
                           /\ Unmarshal env raw = Some data;
    run_image : exists sheet, Open env (Filename data) = Some sheet
                              /\ Decode env sheet = Some img;
    run_rows : Rows data <> 0;
    run_columns : Columns data <> 0;
    run_alloc :
      NewRGBA_ok env
        (GoInt.wrap (gridCellWidth data img - 2 * Padding data))
        (GoInt.wrap (gridCellHeight data img - 2 * Padding data)) = true;
    run_encode :
      Encode_ok env
        (GoInt.wrap (gridCellWidth data img - 2 * Padding data))
        (GoInt.wrap (gridCellHeight data img - 2 * Padding data)) = true;
    run_create : forall p, p ∈ PokemonList data -> Skip p = false ->
                           Create_ok env (jsonOutName data p) = true }.

End Spec.

(** ** Sample inputs *)

Module Sample.
Import GoStr Regexp IO Chop.

Definition emptyWorld : World := {| files := []; stdout := []; stderr := [] |}.

Definition entry (n : Z) (f : option string) : Pokemon :=
  {| ID := n; Form := f; Skip := false; SkipCount := 0 |}.

Definition skipped (n : Z) : Pokemon :=
  {| ID := 0; Form := None; Skip := true; SkipCount := n |}.

(** A two by two sheet of 21 by 21 pixels with an outline of one pixel.
    Its list runs past the four cells: the last entry is cut at row 2. *)
Definition sheet : Data :=
  {| Filename := "sheet.png"; Columns := 2; Rows := 2; Outline := 1;
     Padding := 0; Suffix := Some "legends_arceus";
     PokemonList := [entry 25 (Some "cap"); skipped 0; entry 26 None;
                     entry 27 None; entry 28 None] |}.

Definition sheetImage : Image := {| Dx := 21; Dy := 21 |}.

(** An environment in which every file is there and every operation
    succeeds. *)
Definition env : Env :=
  {| ReadFile := fun _ => Some "{}";
     Unmarshal := fun _ => Some sheet;
     Open := fun _ => Some "png";
     Decode := fun _ => Some sheetImage;
     Dir := fun _ => ".";
     Join := fun d f => d +:+ "/" +:+ f;
     NewRGBA_ok := fun _ _ => true;
     Create_ok := fun _ => true;
     Encode_ok := fun _ _ => true |}.

Definition rule001 : string :=
  ".pkicon.pkicon-001 { width: 20px; height: 19px; background-position: 0px -56px; }".

Definition rule1 : string :=
  ".pkicon.pkicon-1 { width: 21px; height: 22px; background-position: -20px 0px; }".

(** A stylesheet in which two rules resolve to the same key. *)
Definition twice : string := rule001 +:+ String newline rule1.

End Sample.

(** ** Further notions, for the properties beyond the specification *)

Module Extra.
Import GoStr Regexp IO Chop.

(** The world [wd'] continues [wd]: nothing printed on standard output,
    files and diagnostics only added. *)
Definition continues (wd wd' : World) : Prop :=
  stdout wd' = stdout wd
  /\ files wd `prefix_of` files wd'
  /\ stderr wd `prefix_of` stderr wd'.

(** The same, with the diagnostic stream untouched as well. *)
Definition continuesQuietly (wd wd' : World) : Prop :=
  stdout wd' = stdout wd
  /\ files wd `prefix_of` files wd'
  /\ stderr wd' = stderr wd.

(** A file that was created and never encoded. *)
Definition emptyFile (f : File) : Prop := fimage f = None.

(** A line that the pattern of [chopFromSCSS] matches and whose selector
    resolves to a file name. *)
Definition namedRule (line : string) : bool :=
  match FindStringSubmatch 5 lineRE line with
  | Some m => negb (String.eqb (scssSelectorToFilename (sub m 1)) "")
  | None => false
  end.

(** The rectangle of an encoded file starts inside the image and has
    non-negative sides; along each axis it ends inside the image, unless
    the sum of its origin and its side is beyond the largest [int]. *)
Definition passedBounds (img : Image) (f : File) : Prop :=
  match fimage f with
  | Some c =>
      0 <= srcX c /\ 0 <= srcY c /\ 0 <= cropW c /\ 0 <= cropH c
      /\ (srcX c + cropW c <= Dx img \/ GoInt.max_int < srcX c + cropW c)
      /\ (srcY c + cropH c <= Dy img \/ GoInt.max_int < srcY c + cropH c)
  | None => True
  end.

(** Every group numbered [n] inside [r] only ever captures texts with the
    property [Q]. *)
Fixpoint capturesOnly (r : re) (n : nat) (Q : string -> Prop) : Prop :=
  match r with
  | Lit _ | Star _ | Plus _ => True
  | Opt r1 => capturesOnly r1 n Q
  | Grp k r1 =>
      capturesOnly r1 n Q
      /\ (k = n -> forall s cs s' cs', Spec.matches r1 s cs s' cs' -> Q (taken s s'))
  | Cat r1 r2 => capturesOnly r1 n Q /\ capturesOnly r2 n Q
  end.

(** Every match of [r] goes through a group numbered [n]. *)
Fixpoint alwaysCaptures (r : re) (n : nat) : bool :=
  match r with
  | Lit _ | Star _ | Plus _ | Opt _ => false
  | Grp k r1 => Nat.eqb k n || alwaysCaptures r1 n
  | Cat r1 r2 => alwaysCaptures r1 n || alwaysCaptures r2 n
  end.

(** A non-empty string of decimal digits. *)
Definition isNumber (s : string) : Prop :=
  s <> "" /\ Spec.allChars digit s = true.

(** A number, or a minus sign and a number. *)
Definition isSignedNumber (s : string) : Prop :=
  exists t, isNumber t /\ (s = t \/ s = "-" +:+ t).

(** A non-empty string without white space or opening brace. *)
Definition isSelector (s : string) : Prop :=
  s <> "" /\ Spec.allChars selectorChar s = true.

(** The world [wd'] continues [wd], and the rectangles of the files it adds
    passed the bounds test against [img]. *)
Definition growsInBounds (img : Image) (wd wd' : World) : Prop :=
  continues wd wd'
  /\ exists new, files wd' = files wd ++ new /\ Forall (passedBounds img) new.

(** The class [c] does not go on at the front of [rest]. *)
Definition stops (c : ascii -> bool) (rest : string) : Prop :=
  match rest with
  | String a _ => c a = false
  | EmptyString => True
  end.

(** The pattern [r] reads the text [t] in front of [rest] along the path
    the matcher tries first: repetitions take all they can, and an
    optional part is left out only where it cannot start. *)
Fixpoint reads (r : re) (t rest : string) (cs cs' : caps) : Prop :=
  match r with
  | Lit l => t = l /\ cs' = cs
  | Star c => Spec.allChars c t = true /\ stops c rest /\ cs' = cs
  | Plus c => t <> "" /\ Spec.allChars c t = true /\ stops c rest /\ cs' = cs
  | Opt r1 =>
      reads r1 t rest cs cs'
      \/ (t = "" /\ cs' = cs /\ forall k, matchRe r1 rest cs k = None)
  | Grp n r1 => exists cs1, reads r1 t rest cs cs1 /\ cs' = <[n := t]> cs1
  | Cat r1 r2 =>
      exists t1 t2 cs1,
        t = t1 +:+ t2 /\ reads r1 t1 (t2 +:+ rest) cs cs1 /\ reads r2 t2 rest cs1 cs'
  end.

(** A rule as the comment in [chopFromSCSS] shows it, up to the semicolon
    after the offsets. *)
Definition ruleText (selector : string) (w h x y : Z) : string :=
  ".pkicon.pkicon-" +:+ selector +:+ " { width: " +:+ Itoa w
    +:+ "px; height: " +:+ Itoa h
    +:+ "px; background-position: " +:+ Itoa x +:+ "px " +:+ Itoa y +:+ "px;".

(** A part of a selector that may be missing. *)
Definition optionalPart (prefix : string) (o : option string) : string :=
  match o with
  | Some v => prefix +:+ v
  | None => ""
  end.

(** When it is there, the part is a non-empty text in the class [c]. *)
Definition partOf (c : ascii -> bool) (o : option string) : Prop :=
  match o with
  | Some v => v <> "" /\ Spec.allChars c v = true
  | None => True
  end.

(** A rule as the comment on the pattern of [positions] shows it. *)
Definition positionsRule (id : string) (form gameFamily color : option string)
    (w h x y : Z) : string :=
  ".pkicon.pkicon-" +:+ id +:+ optionalPart ".form-" form
    +:+ optionalPart ".game-family-" gameFamily +:+ optionalPart ".color-" color
    +:+ " { width: " +:+ Itoa w +:+ "px; height: " +:+ Itoa h
    +:+ "px; background-position: " +:+ Itoa x +:+ "px " +:+ Itoa y +:+ "px; }".

(** The selector of such a rule. *)
Definition positionsSelector (id : string) (form gameFamily color : option string)
  : string :=
  id +:+ optionalPart ".form-" form +:+ optionalPart ".game-family-" gameFamily
    +:+ optionalPart ".color-" color.

(** The segment of a part that may be missing. *)
Definition optionalSegment (prefix : string) (o : option string) : list string :=
  match o with
  | Some v => [prefix +:+ v]
  | None => []
  end.

(** Segments joined by dots. *)
Fixpoint joinDots (segs : list string) : string :=
  match segs with
  | [] => ""
  | [s] => s
  | s :: rest => s +:+ String "." (joinDots rest)
  end.

(** The name [chop] gives the file of such a selector. *)
Definition documentedName (id : string) (form gameFamily color : option string)
  : string :=
  (match color with
   | Some c => if String.eqb c "shiny" then id else "color-" +:+ c
   | None => id
   end)
    +:+ (if decide (color = Some "shiny") then "-shiny" else "")
    +:+ optionalPart "-" gameFamily +:+ optionalPart "-" form +:+ ".png".

(** The key [extractSpritePositions] gives such a rule. *)
Definition positionsKey (id : string) (form gameFamily color : option string)
  : string :=
  "pokemon-" +:+ Itoa (Positions.atoi id)
    +:+ optionalPart "-" form +:+ optionalPart "-" gameFamily
    +:+ (if decide (color = Some "shiny") then "-shiny" else "").

(** The character is not a dot. *)
Definition noDot (a : ascii) : bool := negb (Ascii.eqb a ".").

(** What a run has produced: files and diagnostics. *)
Definition outputs (wd : World) : nat :=
  (length (files wd) + length (stderr wd))%nat.

(** The file was encoded. *)
Definition encoded (f : File) : Prop := fimage f <> None.

End Extra.

(** ** More sample inputs *)

Module MoreSamples.
Import IO Chop.

(** An environment in which one file cannot be created. *)
Definition flakyEnv : Env :=
  {| ReadFile := fun _ => Some "{}";
     Unmarshal := fun _ => Some Sample.sheet;
     Open := fun _ => Some "png";
     Decode := fun _ => Some Sample.sheetImage;
     Dir := fun _ => ".";
     Join := fun d f => d +:+ "/" +:+ f;
     NewRGBA_ok := fun _ _ => true;
     Create_ok := fun path => negb (String.eqb path "./images/027-legends_arceus.png");
     Encode_ok := fun _ _ => true |}.

(** A sheet description without columns. *)
Definition noColumns : Data :=
  {| Filename := "sheet.png"; Columns := 0; Rows := 2; Outline := 1;
     Padding := 0; Suffix := None; PokemonList := [] |}.

Definition noColumnsEnv : Env :=
  {| ReadFile := fun _ => Some "{}";
     Unmarshal := fun _ => Some noColumns;
     Open := fun _ => Some "png";
     Decode := fun _ => Some Sample.sheetImage;
     Dir := fun _ => ".";
     Join := fun d f => d +:+ "/" +:+ f;
     NewRGBA_ok := fun _ _ => true;
     Create_ok := fun _ => true;
     Encode_ok := fun _ _ => true |}.

(** A stylesheet: a comment, a rule inside the sheet, a rule that leaves
    it, a rule without a name and a rule for a shiny form. *)
Definition stylesheet : string :=
  "// sprites" +:+ String newline
  (".pkicon.pkicon-001 { width: 10px; height: 9px; background-position: 0px -3px; }"
   +:+ String newline
  (".pkicon.pkicon-002 { width: 20px; height: 20px; background-position: -5px -5px; }"
   +:+ String newline
  (".pkicon.pkicon-color-shiny { width: 2px; height: 2px; background-position: 0px 0px; }"
   +:+ String newline
  (".pkicon.pkicon-003.color-shiny.form-mega { width: 4px; height: 5px; background-position: -6px -7px; }"
   +:+ String newline ""))))%string.

Definition scssEnv : Env :=
  {| ReadFile := fun _ => Some stylesheet;
     Unmarshal := fun _ => None;
     Open := fun _ => Some "png";
     Decode := fun _ => Some Sample.sheetImage;
     Dir := fun _ => "sheet";
     Join := fun d f => d +:+ "/" +:+ f;
     NewRGBA_ok := fun _ _ => true;
     Create_ok := fun _ => true;
     Encode_ok := fun _ _ => true |}.

End MoreSamples.


(** ** The command [positions]: [main] and [writeTS] *)

Module PositionsCmd.
Import GoStr Regexp Positions.

(** Standard output and the diagnostic stream, one entry for each line
    written, and the files written in full, in order. *)
Record World : Type :=
  { stdout : list string; stderr : list string; disk : list (string * string) }.

Definition println (line : string) (wd : World) : World :=
  {| stdout := stdout wd ++ [line]; stderr := stderr wd; disk := disk wd |}.

Definition eprintln (line : string) (wd : World) : World :=
  {| stdout := stdout wd; stderr := stderr wd ++ [line]; disk := disk wd |}.

Definition store (path content : string) (wd : World) : World :=
  {| stdout := stdout wd; stderr := stderr wd; disk := disk wd ++ [(path, content)] |}.

(** Answers of the operating system; an error is its text. *)
Record Env : Type :=
  { ReadFile : string -> string + string;          (* os.ReadFile *)
    WriteFile : string -> string -> option string  (* os.WriteFile; None: no error *) }.

Inductive Outcome : Type :=
| Returned (wd : World)
| Exited (code : Z) (wd : World).

Definition quote : string := String (ascii_of_nat 34) "".
Definition backslash : string := String (ascii_of_nat 92) "".
Definition nl : string := String Chop.newline "".

Definition hexDigit (n : nat) : ascii :=
  nth n (list_ascii_of_string "0123456789abcdef") "0"%char.

(** What [strconv.Quote] writes for one byte.  A byte above 127 is
    written as a byte that is not part of a UTF-8 encoding is. *)
Definition quoteByte (a : ascii) : string :=
  let n := nat_of_ascii a in
  if ((n =? 34) || (n =? 92))%nat then backslash +:+ String a ""
  else if ((32 <=? n) && (n <? 127))%nat then String a ""
  else if (n =? 7)%nat then backslash +:+ "a"
  else if (n =? 8)%nat then backslash +:+ "b"
  else if (n =? 12)%nat then backslash +:+ "f"
  else if (n =? 10)%nat then backslash +:+ "n"
  else if (n =? 13)%nat then backslash +:+ "r"
  else if (n =? 9)%nat then backslash +:+ "t"
  else if (n =? 11)%nat then backslash +:+ "v"
  else backslash +:+ "x"
         +:+ String (hexDigit (n / 16)) (String (hexDigit (n mod 16)) "").

Fixpoint quoteBytes (s : string) : string :=
  match s with
  | EmptyString => EmptyString
  | String a s' => quoteByte a +:+ quoteBytes s'
  end.

(** The verb [%q] of [fmt.Sprintf] on a string. *)
Definition Quote (s : string) : string := quote +:+ quoteBytes s +:+ quote.

(** The zero value of [SpritePosition], which indexing a map gives for a
    key that is not there. *)
Definition zero : SpritePosition :=
  {| Width := 0; Height := 0; BackgroundPosition := "" |}.

(** The text written for one key in the loop of [writeTS]. *)
Definition entryLine (key : string) (p : SpritePosition) : string :=
  "  " +:+ Quote key +:+ ": { width: " +:+ Itoa (Width p)
    +:+ ", height: " +:+ Itoa (Height p)
    +:+ ", backgroundPosition: " +:+ Quote (BackgroundPosition p) +:+ " }," +:+ nl.

Definition heading : list string :=
  [ "// Auto-generated from pokesprite.scss" +:+ nl;
    "// Do not edit manually" +:+ nl;
    nl;
    "import { SpritePosition } from './sprite-utils';" +:+ nl;
    nl;
    "/**" +:+ nl;
    " * Map of sprite position data from the spritesheet" +:+ nl;
    " */" +:+ nl;
    "export const spritePositions: Record<string, SpritePosition> = {" +:+ nl ].

(** [b.WriteString] *)
Definition WriteString (b s : string) : string := b +:+ s.

(** The content [writeTS] builds. *)
Definition tableText (positions : gmap string SpritePosition) (order : list string)
  : string :=
  let b := fold_left WriteString heading "" in
  let b :=
    fold_left (fun b key =>
                 let p := default zero (positions !! key) in
                 WriteString b (entryLine key p))
      order b in
  WriteString b ("};" +:+ nl).

(** [writeTS]: the error of [os.WriteFile], if any, and the world. *)
Definition writeTS (env : Env) (path : string)
    (positions : gmap string SpritePosition) (order : list string) (wd : World)
  : option string * World :=
  let content := tableText positions order in
  match WriteFile env path content with
  | Some err => (Some err, wd)
  | None => (None, store path content wd)
  end.

(** [args] is [os.Args]. *)
Definition main (env : Env) (args : list string) (wd : World) : Outcome :=
  let paths :=
    match length args with
    | 1%nat => Some ("./output/pokesprite.scss", "./output/sprite-positions.ts")
    | 3%nat => Some (nth 1 args "", nth 2 args "")
    | _ => None
    end in
  match paths with
  | None =>
      let wd := eprintln "Usage: task positions -- [<input.scss> <output.ts>]" wd in
      let wd :=
        eprintln "Example: task positions -- output/pokesprite.scss output/sprite-positions.ts"
          wd in
      Exited 1 wd
  | Some (scssPath, outPath) =>
      let wd := println "Reading SCSS file..." wd in
      match ReadFile env scssPath with
      | inr err =>
          Exited 1 (eprintln ("Error reading " +:+ scssPath +:+ ": " +:+ err) wd)
      | inl raw =>
          let wd := println "Extracting sprite positions..." wd in
          let '(positions, order) := extractSpritePositions raw in
          let wd :=
            println ("Found " +:+ Itoa (Z.of_nat (size positions))
                       +:+ " sprite positions") wd in
          let wd := println "Writing output file..." wd in
          match writeTS env outPath positions order wd with
          | (Some err, wd) =>
              Exited 1 (eprintln ("Error writing " +:+ outPath +:+ ": " +:+ err) wd)
          | (None, wd) =>
              Returned (println ("Successfully generated " +:+ outPath) wd)
          end
      end
  end.

(** A character [strconv.Quote] copies. *)
Definition plainChar (a : ascii) : bool :=
  let n := nat_of_ascii a in
  ((32 <=? n) && (n <? 127) && negb (n =? 34) && negb (n =? 92))%nat.

(** The last rule with the key of [m], which is [m] when none follows. *)
Definition lastRule (rules : list caps) (m : caps) : caps :=
  default m (last (filter (fun m' => keyOf m' = keyOf m) rules)).

End PositionsCmd.

Module PositionsSample.
Import PositionsCmd.

Definition emptyWorld : World := {| stdout := []; stderr := []; disk := [] |}.

Definition env : Env :=
  {| ReadFile := fun _ => inl Sample.twice;
     WriteFile := fun _ _ => None |}.

Definition noInput : Env :=
  {| ReadFile := fun _ => inr "no such file or directory";
     WriteFile := fun _ _ => None |}.

End PositionsSample.

(** ** Facts about 64-bit arithmetic *)

Section IntFacts.
Import GoInt.

Lemma wrap_small z : in_range z -> wrap z = z.
Proof.
  unfold in_range, min_int, max_int, wrap. intros Hz.
  rewrite Z.mod_small; lia.
Qed.

Lemma wrap_in_range z : in_range (wrap z).
Proof.
  unfold in_range, min_int, max_int, wrap.
  pose proof (Z.mod_pos_bound (z + 2 ^ 63) (2 ^ 64)). lia.
Qed.

Lemma wrap_congruent z : exists k, wrap z = z + k * 2 ^ 64.
Proof.
  exists (- ((z + 2 ^ 63) / 2 ^ 64)). unfold wrap.
  rewrite Z.mod_eq by lia. lia.
Qed.

Lemma wrap_shift z k : wrap (z + k * 2 ^ 64) = wrap z.
Proof.
  unfold wrap.
  replace (z + k * 2 ^ 64 + 2 ^ 63) with (z + 2 ^ 63 + k * 2 ^ 64) by lia.
  now rewrite Z.mod_add by lia.
Qed.

Lemma wrap_add_l a b : wrap (wrap a + b) = wrap (a + b).
Proof.
  destruct (wrap_congruent a) as [k ->].
  replace (a + k * 2 ^ 64 + b) with (a + b + k * 2 ^ 64) by lia.
  apply wrap_shift.
Qed.

Lemma wrap_add_r a b : wrap (a + wrap b) = wrap (a + b).
Proof. rewrite Z.add_comm, wrap_add_l. f_equal. lia. Qed.

Lemma wrap_sub_l a b : wrap (wrap a - b) = wrap (a - b).
Proof. unfold Z.sub. apply wrap_add_l. Qed.

Lemma wrap_sub_r a b : wrap (a - wrap b) = wrap (a - b).
Proof.
  destruct (wrap_congruent b) as [k ->].
  replace (a - (b + k * 2 ^ 64)) with (a - b + (- k) * 2 ^ 64) by lia.
  apply wrap_shift.
Qed.

Lemma wrap_mul_l a b : wrap (wrap a * b) = wrap (a * b).
Proof.
  destruct (wrap_congruent a) as [k ->].
  replace ((a + k * 2 ^ 64) * b) with (a * b + (k * b) * 2 ^ 64) by lia.
  apply wrap_shift.
Qed.

Lemma wrap_mul_r a b : wrap (a * wrap b) = wrap (a * b).
Proof. rewrite Z.mul_comm, wrap_mul_l. f_equal. lia. Qed.

Lemma quo_nonzero a b : b <> 0 -> quo a b = Some (wrap (Z.quot a b)).
Proof. intros Hb. unfold quo. now destruct (Z.eqb_spec b 0). Qed.

Lemma rem_nonzero a b : b <> 0 -> rem a b = Some (wrap (Z.rem a b)).
Proof. intros Hb. unfold rem. now destruct (Z.eqb_spec b 0). Qed.

Lemma corner_formula c h o p :
  add (add (mul c h) (mul (add c 1) o)) p = wrap (c * h + (c + 1) * o + p).
Proof.
  unfold add, mul.
  destruct (wrap_congruent (c * h)) as [k1 ->].
  destruct (wrap_congruent (c + 1)) as [k2 ->].
  destruct (wrap_congruent ((c + 1 + k2 * 2 ^ 64) * o)) as [k3 ->].
  destruct (wrap_congruent
              (c * h + k1 * 2 ^ 64 + ((c + 1 + k2 * 2 ^ 64) * o + k3 * 2 ^ 64)))
    as [k4 ->].
  rewrite <- (wrap_shift (c * h + (c + 1) * o + p) (k1 + k2 * o + k3 + k4)).
  f_equal. ring.
Qed.

Lemma inset_formula a p : sub a (mul 2 p) = wrap (a - 2 * p).
Proof. unfold sub, mul. apply wrap_sub_r. Qed.

Lemma cell_formula total n o :
  n <> 0 ->
  quo (sub total (mul (add n 1) o)) n
  = Some (wrap (Z.quot (wrap (total - (n + 1) * o)) n)).
Proof.
  intros Hn. rewrite quo_nonzero by done. unfold sub, mul, add.
  now rewrite wrap_mul_l, wrap_sub_r.
Qed.

End IntFacts.

(** ** Loops *)

Section Loops.
Import IO.
Context {A S : Type} (body : A -> S -> Step S).

Lemma forEach_app l1 l2 s :
  forEach body (l1 ++ l2) s =
    match forEach body l1 s with
    | Next s' => forEach body l2 s'
    | Abort wd => Abort wd
    end.
Proof.
  revert s. induction l1 as [|a l1 IH]; intros s; simpl; [done|].
  destruct (body a s); [apply IH | done].
Qed.

Lemma forEach_snoc l a s :
  forEach body (l ++ [a]) s =
    match forEach body l s with
    | Next s' => body a s'
    | Abort wd => Abort wd
    end.
Proof.
  rewrite forEach_app. destruct (forEach body l s); [simpl | done].
  now destruct (body a s0).
Qed.

End Loops.

(** ** The grid loop *)

Section Grid.
Import GoInt GoStr IO Chop Spec.
Variables (env : Env) (data : Data) (cellW cellH : Z).

Local Abbreviation body := (jsonEntry env data cellW cellH).

Lemma jsonEntry_skip p i wd :
  Skip p = true ->
  body p (i, wd) = Next (wrap (i + slots p), wd).
Proof. intros Hs. unfold jsonEntry, slots, add. now rewrite Hs. Qed.

Lemma jsonEntry_emit p i wd :
  Skip p = false ->
  Columns data <> 0 ->
  NewRGBA_ok env (wrap (cellW - 2 * Padding data))
    (wrap (cellH - 2 * Padding data)) = true ->
  Encode_ok env (wrap (cellW - 2 * Padding data))
    (wrap (cellH - 2 * Padding data)) = true ->
  Create_ok env (jsonOutName data p) = true ->
  body p (i, wd)
  = Next (wrap (i + slots p),
          addFile {| fpath := jsonOutName data p;
                     fimage := Some (sourceRect data cellW cellH i) |} wd).
Proof.
  intros Hs Hc Ha He Hf. unfold jsonEntry, slots. rewrite Hs.
  rewrite quo_nonzero, rem_nonzero by done.
  rewrite !inset_formula, !corner_formula, Ha, He, Hf. reflexivity.
Qed.

(** A non-skipped entry either panics or writes one file and moves the
    cursor by one. *)
Lemma jsonEntry_emit_cursor p i wd j wd' :
  Skip p = false -> body p (i, wd) = Next (j, wd') ->
  j = add i 1 /\ exists c,
    wd' = addFile {| fpath := jsonOutName data p; fimage := Some c |} wd.
Proof.
  intros Hs. unfold jsonEntry. rewrite Hs.
  destruct (quo i (Columns data)), (rem i (Columns data)); try done.
  repeat (case_match; try done). intros [= <- <-]. eauto.
Qed.

Lemma cursorFrom_app i l1 l2 :
  cursorFrom i (l1 ++ l2) = cursorFrom (cursorFrom i l1) l2.
Proof. unfold cursorFrom. apply fold_left_app. Qed.

Lemma plan_app i l1 l2 :
  plan data cellW cellH i (l1 ++ l2)
  = plan data cellW cellH i l1
      ++ plan data cellW cellH (cursorFrom i l1) l2.
Proof.
  revert i. induction l1 as [|p l1 IH]; intros i; simpl; [done|].
  destruct (Skip p); simpl; now rewrite IH.
Qed.


(** The loop over entries whose operations succeed: it ends normally, at
    the cursor [cursorFrom i l], having appended the files of the plan. *)
Lemma jsonLoop_run l : forall i wd,
  Columns data <> 0 ->
  NewRGBA_ok env (wrap (cellW - 2 * Padding data))
    (wrap (cellH - 2 * Padding data)) = true ->
  Encode_ok env (wrap (cellW - 2 * Padding data))
    (wrap (cellH - 2 * Padding data)) = true ->
  (forall p, p ∈ l -> Skip p = false -> Create_ok env (jsonOutName data p) = true) ->
  forEach body l (i, wd)
  = Next (cursorFrom i l,
          {| files := files wd ++ plan data cellW cellH i l;
             stdout := stdout wd; stderr := stderr wd |}).
Proof.
  induction l as [|p l IH]; intros i wd Hc Ha He Hf.
  - simpl. rewrite app_nil_r. now destruct wd.
  - cbn [forEach]. destruct (Skip p) eqn:Hs.
    + rewrite jsonEntry_skip by done.
      rewrite IH; try done; [|intros q Hq; apply Hf; now right].
      unfold cursorFrom. cbn [plan fold_left]. now rewrite Hs.
    + rewrite jsonEntry_emit; try done; [|apply Hf; [left|done]].
      rewrite IH; try done; [|intros q Hq; apply Hf; now right].
      unfold cursorFrom. cbn [plan fold_left addFile files stdout stderr].
      rewrite Hs. now rewrite <- app_assoc.
Qed.

End Grid.

Section GridRuns.
Import GoInt GoStr IO Chop Spec.

Lemma cell_sizes data img :
  Rows data <> 0 -> Columns data <> 0 ->
  cellHeight data img = Some (gridCellHeight data img)
  /\ cellWidth data img = Some (gridCellWidth data img).
Proof.
  intros Hr Hc. unfold cellHeight, cellWidth, gridCellHeight, gridCellWidth.
  now rewrite !cell_formula.
Qed.

(** A valid run returns, and its new files are the plan of the sheet. *)
Lemma chopFromJSON_run env filename data img wd :
  GridRun env filename data img ->
  chopFromJSON env filename wd
  = Returned
      {| files := files wd
                  ++ plan data (gridCellWidth data img) (gridCellHeight data img)
                       0 (PokemonList data);
         stdout := stdout wd; stderr := stderr wd |}.
Proof.
  intros [(raw & Hraw & Hdata) (sheet & Hopen & Himg) Hr Hc Ha He Hf].
  unfold chopFromJSON. rewrite Hraw, Hdata, Hopen, Himg.
  destruct (cell_sizes data img Hr Hc) as [-> ->].
  unfold jsonLoop. now rewrite jsonLoop_run.
Qed.

End GridRuns.

(** C1.  In grid mode the entry that is not skipped and stands at cursor
    index [i] (with [row = i / columns] and [col = i % columns]) is cut
    at [x = col * cellHeight + (col + 1) * outline + padding] and
    [y = row * cellWidth + (row + 1) * outline + padding], where
    [cellHeight = (imageHeight - (rows + 1) * outline) / rows] and
    [cellWidth = (imageWidth - (columns + 1) * outline) / columns] in
    truncating division, and its image has the size
    [(cellWidth - 2 * padding, cellHeight - 2 * padding)]; all of it in
    Go's [int] arithmetic.  The column index scales by the cell height and
    the row index by the cell width. *)
Theorem grid_source_rectangle env filename data img wd :
  Spec.GridRun env filename data img ->
  let cellH :=
    GoInt.wrap (Z.quot (GoInt.wrap (IO.Dy img - (Chop.Rows data + 1) * Chop.Outline data))
                  (Chop.Rows data)) in
  let cellW :=
    GoInt.wrap (Z.quot (GoInt.wrap (IO.Dx img - (Chop.Columns data + 1) * Chop.Outline data))
                  (Chop.Columns data)) in
  Chop.cellHeight data img = Some cellH /\
  Chop.cellWidth data img = Some cellW /\
  exists wd',
    Chop.chopFromJSON env filename wd = IO.Returned wd' /\
    forall pre p post,
      Chop.PokemonList data = pre ++ p :: post ->
      Chop.Skip p = false ->
      exists i wd1 row col,
        Chop.jsonLoop env data cellW cellH pre wd = IO.Next (i, wd1) /\
        GoInt.quo i (Chop.Columns data) = Some row /\
        GoInt.rem i (Chop.Columns data) = Some col /\
        IO.files wd' !! length (IO.files wd1)
        = Some {| IO.fpath := Chop.jsonOutName data p;
                  IO.fimage :=
                    Some {| IO.srcX :=
                              GoInt.wrap (col * cellH + (col + 1) * Chop.Outline data
                                          + Chop.Padding data);
                            IO.srcY :=
                              GoInt.wrap (row * cellW + (row + 1) * Chop.Outline data
                                          + Chop.Padding data);
                            IO.cropW := GoInt.wrap (cellW - 2 * Chop.Padding data);
                            IO.cropH := GoInt.wrap (cellH - 2 * Chop.Padding data) |} |}.
Proof.
  intros Hrun cellH cellW.
  pose proof (cell_sizes data img (Spec.run_rows _ _ _ _ Hrun)
                (Spec.run_columns _ _ _ _ Hrun)) as [HH HW].
  split; [exact HH|]. split; [exact HW|].
  eexists. split; [apply chopFromJSON_run; exact Hrun|].
  intros pre p post Hl Hs.
  destruct Hrun as [_ _ Hr Hc Ha He Hf].
  exists (Spec.cursorFrom 0 pre).
  eexists. exists (GoInt.wrap (Z.quot (Spec.cursorFrom 0 pre) (Chop.Columns data))).
  exists (GoInt.wrap (Z.rem (Spec.cursorFrom 0 pre) (Chop.Columns data))).
  split.
  { unfold Chop.jsonLoop. apply jsonLoop_run; try done.
    intros q Hq. apply Hf. rewrite Hl. apply elem_of_app. now left. }
  split; [now apply quo_nonzero|]. split; [now apply rem_nonzero|].
  cbn [IO.files]. rewrite Hl, plan_app. cbn [Spec.plan]. rewrite Hs.
  rewrite app_assoc. now apply list_lookup_middle.
Qed.

Lemma grid_source_rectangle_witness :
  Spec.GridRun Sample.env "sheet.json" Sample.sheet Sample.sheetImage /\
  exists wd',
    Chop.chopFromJSON Sample.env "sheet.json" Sample.emptyWorld = IO.Returned wd' /\
    IO.files wd' !! 3%nat
    = Some {| IO.fpath := "./images/028-legends_arceus.png";
              IO.fimage := Some {| IO.srcX := 1; IO.srcY := 21;
                                   IO.cropW := 9; IO.cropH := 9 |} |}.
Proof.
  assert (Hrun : Spec.GridRun Sample.env "sheet.json" Sample.sheet Sample.sheetImage).
  { split; try reflexivity; try (eexists; split; reflexivity); vm_compute; congruence. }
  split; [exact Hrun|].
  destruct (grid_source_rectangle Sample.env "sheet.json" Sample.sheet
              Sample.sheetImage Sample.emptyWorld Hrun)
    as (_ & _ & wd' & Hret & Hall).
  exists wd'. split; [exact Hret|].
  destruct (Hall [Sample.entry 25 (Some "cap"); Sample.skipped 0;
                  Sample.entry 26 None; Sample.entry 27 None]
              (Sample.entry 28 None) [] eq_refl eq_refl)
    as (i & wd1 & row & col & Hloop & Hq & Hr & Hfile).
  vm_compute in Hloop. injection Hloop as <- <-.
  vm_compute in Hq. injection Hq as <-.
  vm_compute in Hr. injection Hr as <-.
  exact Hfile.
Defined.



(** C3.  The grid-slot cursor starts at 0 and, along the list, advances
    by exactly 1 for an entry that is emitted and by exactly [skipCount]
    for a skipped entry, a [skipCount] of zero counting as 1; skipped
    entries with the counts 2, 0 and 3 advance it by exactly 6. *)
Theorem cursor_advance env data cellW cellH :
  (forall wd, Chop.jsonLoop env data cellW cellH [] wd = IO.Next (0, wd)) /\
  (forall l p wd i wd1,
      Chop.jsonLoop env data cellW cellH l wd = IO.Next (i, wd1) ->
      Chop.Skip p = true ->
      Chop.jsonLoop env data cellW cellH (l ++ [p]) wd
      = IO.Next (GoInt.add i (if Chop.SkipCount p =? 0 then 1 else Chop.SkipCount p),
                 wd1)) /\
  (forall l p wd i wd1 j wd2,
      Chop.jsonLoop env data cellW cellH l wd = IO.Next (i, wd1) ->
      Chop.Skip p = false ->
      Chop.jsonLoop env data cellW cellH (l ++ [p]) wd = IO.Next (j, wd2) ->
      j = GoInt.add i 1 /\
      exists c, wd2 = IO.addFile {| IO.fpath := Chop.jsonOutName data p;
                                    IO.fimage := Some c |} wd1) /\
  (forall l p wd i wd1,
      Chop.jsonLoop env data cellW cellH l wd = IO.Next (i, wd1) ->
      Chop.Skip p = false ->
      Chop.Columns data <> 0 ->
      Chop.NewRGBA_ok env (GoInt.wrap (cellW - 2 * Chop.Padding data))
        (GoInt.wrap (cellH - 2 * Chop.Padding data)) = true ->
      Chop.Encode_ok env (GoInt.wrap (cellW - 2 * Chop.Padding data))
        (GoInt.wrap (cellH - 2 * Chop.Padding data)) = true ->
      Chop.Create_ok env (Chop.jsonOutName data p) = true ->
      exists wd2,
        Chop.jsonLoop env data cellW cellH (l ++ [p]) wd
        = IO.Next (GoInt.add i 1, wd2)) /\
  (forall l a b c wd i wd1,
      Chop.jsonLoop env data cellW cellH l wd = IO.Next (i, wd1) ->
      Chop.Skip a = true -> Chop.SkipCount a = 2 ->
      Chop.Skip b = true -> Chop.SkipCount b = 0 ->
      Chop.Skip c = true -> Chop.SkipCount c = 3 ->
      Chop.jsonLoop env data cellW cellH (l ++ [a; b; c]) wd
      = IO.Next (GoInt.add i 6, wd1)).
Proof.
  unfold Chop.jsonLoop. split; [done|]. split; [|split; [|split]].
  - intros l p wd i wd1 Hl Hs. rewrite forEach_snoc, Hl.
    rewrite jsonEntry_skip by done. unfold Spec.slots. now rewrite Hs.
  - intros l p wd i wd1 j wd2 Hl Hs Hp. rewrite forEach_snoc, Hl in Hp.
    now apply jsonEntry_emit_cursor in Hp.
  - intros l p wd i wd1 Hl Hs Hc Ha He Hf. rewrite forEach_snoc, Hl.
    rewrite jsonEntry_emit by done. unfold Spec.slots. rewrite Hs. eauto.
  - intros l a b c wd i wd1 Hl Ha Ha' Hb Hb' Hc Hc'.
    rewrite forEach_app, Hl. cbn [IO.forEach].
    rewrite !jsonEntry_skip by done. unfold Spec.slots.
    rewrite Ha, Ha', Hb, Hb', Hc, Hc'. cbn [Z.eqb].
    unfold GoInt.add. rewrite !wrap_add_l, <- Z.add_assoc, wrap_add_l.
    do 3 f_equal. lia.
Qed.

Lemma cursor_advance_witness :
  Chop.jsonLoop Sample.env Sample.sheet 9 9
    ([Sample.entry 25 None] ++ [Sample.skipped 2; Sample.skipped 0; Sample.skipped 3])
    Sample.emptyWorld
  = IO.Next (GoInt.add 1 6,
             IO.addFile {| IO.fpath := "./images/025-legends_arceus.png";
                           IO.fimage := Some {| IO.srcX := 1; IO.srcY := 1;
                                                IO.cropW := 9; IO.cropH := 9 |} |}
               Sample.emptyWorld)
  /\ Chop.jsonLoop Sample.env Sample.sheet 9 9 ([] ++ [Sample.skipped 5])
       Sample.emptyWorld
     = IO.Next (GoInt.add 0 5, Sample.emptyWorld)
  /\ (forall j wd2,
        Chop.jsonLoop Sample.env Sample.sheet 9 9 ([] ++ [Sample.entry 25 None])
          Sample.emptyWorld = IO.Next (j, wd2) ->
        j = GoInt.add 0 1).
Proof.
  pose proof (cursor_advance Sample.env Sample.sheet 9 9)
    as (H0 & Hskip & Hemit & _ & Hrun).
  split; [|split].
  - apply Hrun; reflexivity.
  - apply (Hskip [] (Sample.skipped 5)); reflexivity.
  - intros j wd2 H.
    exact (proj1 (Hemit [] (Sample.entry 25 None) Sample.emptyWorld 0
                    Sample.emptyWorld j wd2 (H0 _) eq_refl H)).
Defined.

(** ** Strings *)

Section Strings.

Lemma append_cons x (a b : string) : String x a +:+ b = String x (a +:+ b).
Proof. reflexivity. Qed.

Lemma append_empty_l (a : string) : "" +:+ a = a.
Proof. reflexivity. Qed.

Lemma append_assoc (a b c : string) : (a +:+ b) +:+ c = a +:+ (b +:+ c).
Proof.
  induction a as [|x a IH]; [done|]. rewrite !append_cons. now f_equal.
Qed.

Lemma append_empty_r (a : string) : a +:+ "" = a.
Proof.
  induction a as [|x a IH]; [done|]. rewrite append_cons. now f_equal.
Qed.

Lemma append_length (a b : string) :
  String.length (a +:+ b) = (String.length a + String.length b)%nat.
Proof.
  induction a as [|x a IH]; [done|]. rewrite append_cons. simpl. now f_equal.
Qed.

Lemma eqb_false_iff (a b : string) : String.eqb a b = false <-> a <> b.
Proof. apply String.eqb_neq. Qed.

End Strings.

(** ** The name of a sprite file *)

Section Names.
Import GoStr IO Chop Spec.

Lemma classify_base v s :
  baseSegment s = true ->
  classify v s
  = {| id := s; form := form v; gameFamily := gameFamily v; shiny := shiny v |}.
Proof.
  unfold baseSegment, classify. intros H.
  repeat (apply andb_prop in H as [H ?]).
  repeat match goal with
         | Hn : negb ?b = true |- _ =>
             apply negb_true_iff in Hn; rewrite Hn
         end.
  reflexivity.
Qed.

Lemma classify_modifier v s :
  baseSegment s = false -> id (classify v s) = id v.
Proof.
  unfold baseSegment, classify. intros H.
  destruct (String.eqb s "color-shiny"); [done|].
  destruct (HasPrefix s "form-"); [done|].
  destruct (HasPrefix s "game-family-"); [done|].
  destruct (HasPrefix s "pkicon-"); [done|]. discriminate.
Qed.

Lemma resolve_id segs : forall v,
  id (fold_left classify segs v)
  = default (id v) (last (filter (fun s => baseSegment s = true) segs)).
Proof.
  induction segs as [|s segs IH]; intros v; [done|].
  cbn [fold_left]. rewrite IH, filter_cons.
  destruct (baseSegment s) eqn:Hs.
  - rewrite decide_True by done. rewrite classify_base by done. cbn [id].
    rewrite last_cons. now destruct (last _).
  - rewrite decide_False by done. now rewrite classify_modifier.
Qed.

Lemma color_prefix_is_base s :
  HasPrefix s "color-" = true -> s <> "color-shiny" -> baseSegment s = true.
Proof.
  unfold HasPrefix, baseSegment. intros Hp Hs.
  apply String.eqb_neq in Hs. rewrite Hs.
  destruct s as [|a s]; [done|]. cbn [String.prefix] in Hp.
  destruct (ascii_dec "c" a) as [<-|]; [|done]. reflexivity.
Qed.

End Names.

(** C5.  Whenever the base token a stylesheet selector resolves to is
    [ball-love], the output filename is exactly [love-ball.png], whatever
    shiny, form or game-family modifiers the selector carries. *)
Theorem love_ball_filename parts :
  Chop.id (Chop.resolve parts) = "ball-love" ->
  Chop.scssSelectorToFilename parts = "love-ball.png".
Proof.
  intros H. unfold Chop.scssSelectorToFilename, Chop.filenameOf. now rewrite H.
Qed.

Lemma love_ball_filename_witness :
  Chop.id (Chop.resolve "ball-love.form-gmax.game-family-sv.color-shiny") = "ball-love"
  /\ Chop.scssSelectorToFilename "ball-love.form-gmax.game-family-sv.color-shiny"
     = "love-ball.png".
Proof.
  split; [reflexivity|].
  apply (love_ball_filename "ball-love.form-gmax.game-family-sv.color-shiny").
  reflexivity.
Defined.

(** C9.  In [scssSelectorToFilename] every dot-separated segment that is
    not exactly [color-shiny] and does not start with [form-],
    [game-family-] or [pkicon-] is taken as the base token, the last such
    segment winning; a segment such as [color-regular], with the prefix
    [color-] but other than [color-shiny], is no colour modifier: it
    replaces the base token and changes the output filename. *)
Theorem base_token_is_last_plain_segment :
  (forall v s, Spec.baseSegment s = true ->
     Chop.classify v s
     = {| Chop.id := s; Chop.form := Chop.form v;
          Chop.gameFamily := Chop.gameFamily v; Chop.shiny := Chop.shiny v |}) /\
  (forall v s, Spec.baseSegment s = false ->
     Chop.id (Chop.classify v s) = Chop.id v) /\
  (forall parts,
     Chop.id (Chop.resolve parts)
     = default "" (last (filter (fun s => Spec.baseSegment s = true)
                           (GoStr.Split parts ".")))) /\
  (forall s, GoStr.HasPrefix s "color-" = true -> s <> "color-shiny" ->
     Spec.baseSegment s = true) /\
  Chop.scssSelectorToFilename "001" = "001.png" /\
  Chop.scssSelectorToFilename "001.color-shiny" = "001-shiny.png" /\
  Chop.scssSelectorToFilename "001.color-regular" = "color-regular.png".
Proof.
  split; [exact classify_base|]. split; [exact classify_modifier|].
  split; [intros parts; apply resolve_id|].
  split; [exact color_prefix_is_base|]. done.
Qed.

Lemma base_token_is_last_plain_segment_witness :
  Chop.classify Chop.noIdentity "color-regular"
  = {| Chop.id := "color-regular"; Chop.form := ""; Chop.gameFamily := "";
       Chop.shiny := false |}
  /\ Chop.id (Chop.classify (Chop.classify Chop.noIdentity "001") "form-cap") = "001"
  /\ Spec.baseSegment "color-regular" = true.
Proof.
  pose proof base_token_is_last_plain_segment as (Hb & Hm & _ & Hc & _).
  split; [|split].
  - apply Hb. reflexivity.
  - rewrite Hm by reflexivity. reflexivity.
  - apply Hc; [reflexivity | discriminate].
Defined.

Section Padding.
Import GoStr.

Lemma Sprintf_03d_nonneg z :
  0 <= z ->
  Sprintf_03d z = zeros (3 - String.length (Itoa z)) +:+ Itoa z.
Proof.
  intros Hz. unfold Sprintf_03d, Itoa.
  destruct z as [|p|p]; [reflexivity | reflexivity | lia].
Qed.

End Padding.

(** C4, as amended.  The name of an output file is a function of the
    resolved identity with a fixed order of suffixes.  For a stylesheet
    identity whose base token is neither empty nor [ball-love] the name is
    the base token, then [-shiny] if shiny, then [-<gameFamily>] if
    present, then [-<form>] if present, then [.png]; the empty base token
    gives the empty name and [ball-love] gives [love-ball.png].  For a
    grid identity the name, inside [./images/], is the id in decimal
    padded with zeros to three digits, then [-<suffix>] if the sheet has
    a suffix, then [-<form>] if present, then [.png]. *)
Theorem filename_policy :
  (forall v,
     Chop.id v <> "" -> Chop.id v <> "ball-love" ->
     Chop.filenameOf v
     = Chop.id v
       +:+ (if Chop.shiny v then "-shiny" else "")
       +:+ (if String.eqb (Chop.gameFamily v) "" then "" else "-" +:+ Chop.gameFamily v)
       +:+ (if String.eqb (Chop.form v) "" then "" else "-" +:+ Chop.form v)
       +:+ ".png") /\
  (forall v, Chop.id v = "" -> Chop.filenameOf v = "") /\
  (forall v, Chop.id v = "ball-love" -> Chop.filenameOf v = "love-ball.png") /\
  (forall data p,
     Chop.jsonOutName data p
     = "./images/" +:+ GoStr.Sprintf_03d (Chop.ID p)
       +:+ (match Chop.Suffix data with Some s => "-" +:+ s | None => "" end)
       +:+ (match Chop.Form p with Some f => "-" +:+ f | None => "" end)
       +:+ ".png") /\
  (forall z, 0 <= z ->
     GoStr.Sprintf_03d z
     = GoStr.zeros (3 - String.length (GoStr.Itoa z)) +:+ GoStr.Itoa z) /\
  Chop.scssSelectorToFilename "025.form-cap.game-family-legends_arceus.color-shiny"
  = "025-shiny-legends_arceus-cap.png" /\
  Chop.jsonOutName
    {| Chop.Filename := "sheet.png"; Chop.Columns := 1; Chop.Rows := 1;
       Chop.Outline := 0; Chop.Padding := 0; Chop.Suffix := Some "legends_arceus";
       Chop.PokemonList := [] |}
    {| Chop.ID := 25; Chop.Form := Some "cap"; Chop.Skip := false;
       Chop.SkipCount := 0 |}
  = "./images/025-legends_arceus-cap.png".
Proof.
  split.
  { intros v Hid Hball. unfold Chop.filenameOf.
    apply String.eqb_neq in Hid, Hball. rewrite Hid, Hball.
    destruct (Chop.shiny v), (String.eqb (Chop.gameFamily v) ""),
      (String.eqb (Chop.form v) ""); cbn [negb];
      rewrite ?append_assoc, ?append_empty_l, ?append_empty_r; reflexivity. }
  split; [intros v H; unfold Chop.filenameOf; now rewrite H|].
  split; [intros v H; unfold Chop.filenameOf; now rewrite H|].
  split.
  { intros data p. unfold Chop.jsonOutName.
    destruct (Chop.Suffix data), (Chop.Form p);
      rewrite ?append_assoc, ?append_empty_l, ?append_empty_r; reflexivity. }
  split; [exact Sprintf_03d_nonneg|]. split; reflexivity.
Qed.

Lemma filename_policy_witness :
  Chop.filenameOf {| Chop.id := "025"; Chop.form := "cap";
                     Chop.gameFamily := "legends_arceus"; Chop.shiny := true |}
  = "025-shiny-legends_arceus-cap.png"
  /\ Chop.filenameOf (Chop.resolve "form-cap.color-shiny") = ""
  /\ Chop.filenameOf (Chop.resolve "color-shiny.ball-love") = "love-ball.png"
  /\ GoStr.Sprintf_03d 7 = "007".
Proof.
  pose proof filename_policy as (Hname & Hempty & Hball & _ & Hpad & _).
  split; [|split; [|split]].
  - rewrite Hname by (cbn [Chop.id]; congruence). reflexivity.
  - apply Hempty. reflexivity.
  - apply Hball. reflexivity.
  - rewrite Hpad by lia. reflexivity.
Defined.

(** The identity read from [ball-love.color-shiny] has the base token
    [ball-love] and is shiny, yet its file is not named
    [ball-love-shiny.png]. *)
Lemma filename_policy_counterexample :
  let v := Chop.resolve "ball-love.color-shiny" in
  Chop.id v = "ball-love" /\ Chop.shiny v = true /\
  Chop.scssSelectorToFilename "ball-love.color-shiny" = "love-ball.png" /\
  Chop.filenameOf v
  <> Chop.id v
     +:+ (if Chop.shiny v then "-shiny" else "")
     +:+ (if String.eqb (Chop.gameFamily v) "" then "" else "-" +:+ Chop.gameFamily v)
     +:+ (if String.eqb (Chop.form v) "" then "" else "-" +:+ Chop.form v)
     +:+ ".png".
Proof. vm_compute. repeat split; congruence. Qed.

(** ** The command line *)

Lemma main_wrong_arguments env args wd :
  length args <> 2%nat ->
  Chop.main env args wd
  = IO.Exited 1 {| IO.files := IO.files wd;
                   IO.stdout := IO.stdout wd ++ Chop.usage;
                   IO.stderr := IO.stderr wd |}.
Proof.
  intros Hn. unfold Chop.main.
  destruct (Nat.eqb_spec (length args) 2) as [|_]; [done|].
  cbn [negb]. unfold Chop.usage, IO.println. cbn [fold_left IO.files IO.stdout IO.stderr].
  now rewrite <- !app_assoc.
Qed.

(** C8, as the code has it.  Called with no argument, or with two, the
    command exits with status 1; its usage message goes to standard
    output and nothing is written to standard error. *)
Theorem usage_goes_to_stdout env wd :
  Chop.main env ["chop"] wd
  = IO.Exited 1 {| IO.files := IO.files wd;
                   IO.stdout := IO.stdout wd ++ Chop.usage;
                   IO.stderr := IO.stderr wd |}
  /\ Chop.main env ["chop"; "a.json"; "b.json"] wd
     = IO.Exited 1 {| IO.files := IO.files wd;
                      IO.stdout := IO.stdout wd ++ Chop.usage;
                      IO.stderr := IO.stderr wd |}.
Proof. split; now apply main_wrong_arguments. Qed.

(** ** The stylesheet loop *)

Section Stylesheet.
Import GoStr Regexp IO Chop Spec.
Variables (env : Env) (img : Image).





Lemma withDiagnostic_stderr n msg wd :
  (n <= length (stderr wd))%nat ->
  (n <= length (stderr (withDiagnostic n msg wd)))%nat.
Proof.
  intros Hn. unfold withDiagnostic. cbn [stderr].
  rewrite length_app, length_take. simpl. lia.
Qed.


End Stylesheet.




(** ** Soundness of the matcher *)

Section Matcher.
Import Regexp Spec.

Lemma dropPrefix_sound l : forall s s',
  dropPrefix l s = Some s' -> s = l +:+ s'.
Proof.
  induction l as [|a l IH]; intros s s' H; simpl in H.
  - now injection H as ->.
  - destruct s as [|b s]; [done|].
    destruct (Ascii.eqb_spec a b) as [<-|]; [|done].
    rewrite append_cons. f_equal. now apply IH.
Qed.

Lemma star_sound c s : forall k out,
  star c s k = Some out ->
  exists t s', s = t +:+ s' /\ allChars c t = true /\ k s' = Some out.
Proof.
  induction s as [|a s IH]; intros k out H; simpl in H.
  - exists "", "". done.
  - destruct (c a) eqn:Hc; [|exists "", (String a s); done].
    destruct (star c s k) as [out'|] eqn:Hs.
    + injection H as <-. apply IH in Hs as (t & s' & -> & Ht & Hk).
      exists (String a t), s'. split; [done|]. split; [|done].
      simpl. now rewrite Hc.
    + exists "", (String a s). done.
Qed.

Lemma matchRe_sound r : forall s cs k out,
  matchRe r s cs k = Some out ->
  exists s' cs', matches r s cs s' cs' /\ k s' cs' = Some out.
Proof.
  induction r as [l|c|c|r IH|n r IH|r1 IH1 r2 IH2]; intros s cs k out H;
    cbn [matchRe] in H; cbn [matches].
  - destruct (dropPrefix l s) as [s'|] eqn:Hl; [|done].
    apply dropPrefix_sound in Hl. eauto.
  - apply star_sound in H as (t & s' & -> & Ht & Hk). eauto 8.
  - destruct s as [|a s]; [done|]. destruct (c a) eqn:Hc; [|done].
    apply star_sound in H as (t & s' & -> & Ht & Hk).
    exists s', cs. split; [|done]. exists (String a t).
    split; [done|]. split; [done|]. split; [|done]. simpl. now rewrite Hc.
  - destruct (matchRe r s cs k) as [out'|] eqn:Hr.
    + injection H as <-. apply IH in Hr as (s' & cs' & Hm & Hk). eauto.
    + eauto 6.
  - apply IH in H as (s' & cs' & Hm & Hk). eauto 6.
  - apply IH1 in H as (s1 & cs1 & Hm1 & H).
    apply IH2 in H as (s' & cs' & Hm2 & Hk). eauto 8.
Qed.

Lemma matchAt_sound n r s out :
  matchAt n r s = Some out ->
  exists s' cs', matches r s (replicate (S n) "") s' cs'
                 /\ out = <[0%nat := taken s s']> cs'.
Proof.
  unfold matchAt. intros H.
  apply matchRe_sound in H as (s' & cs' & Hm & [= <-]). eauto.
Qed.

Lemma FindStringSubmatch_sound n r s : forall out,
  FindStringSubmatch n r s = Some out ->
  exists s0 s' cs', matches r s0 (replicate (S n) "") s' cs'
                    /\ out = <[0%nat := taken s0 s']> cs'.
Proof.
  induction s as [|a s IH]; intros out H; cbn [FindStringSubmatch] in H.
  - destruct (matchAt n r "") eqn:Hm; [|done]. injection H as ->.
    apply matchAt_sound in Hm as (s' & cs' & ? & ?). eauto.
  - destruct (matchAt n r (String a s)) eqn:Hm.
    + injection H as ->. apply matchAt_sound in Hm as (s' & cs' & ? & ?). eauto.
    + now apply IH.
Qed.

(** A match only writes the submatches of its own groups. *)
Lemma matches_frame r : forall s cs s' cs' i,
  matches r s cs s' cs' -> i ∉ groups r -> sub cs' i = sub cs i.
Proof.
  induction r as [l|c|c|r IH|n r IH|r1 IH1 r2 IH2]; intros s cs s' cs' i H Hi;
    cbn [matches groups] in *.
  - now destruct H as [_ ->].
  - now destruct H as (t & _ & _ & ->).
  - now destruct H as (t & _ & _ & _ & ->).
  - destruct H as [H|[_ ->]]; [now apply (IH _ _ _ _ i) in H | done].
  - destruct H as (cs1 & H & ->).
    apply not_elem_of_cons in Hi as [Hn Hi].
    apply (IH _ _ _ _ i) in H; [|done].
    unfold sub in *. now rewrite list_lookup_insert_ne.
  - destruct H as (s1 & cs1 & H1 & H2).
    apply not_elem_of_app in Hi as [Hi1 Hi2].
    apply (IH1 _ _ _ _ i) in H1; [|done].
    apply (IH2 _ _ _ _ i) in H2; [|done]. congruence.
Qed.

Lemma matches_length r s cs s' cs' :
  matches r s cs s' cs' -> length cs' = length cs.
Proof.
  revert s cs s' cs'.
  induction r as [l|c|c|r IH|n r IH|r1 IH1 r2 IH2]; intros s cs s' cs' H;
    cbn [matches] in *.
  - now destruct H as [_ ->].
  - now destruct H as (t & _ & _ & ->).
  - now destruct H as (t & _ & _ & _ & ->).
  - destruct H as [H|[_ ->]]; [now apply IH in H | done].
  - destruct H as (cs1 & H & ->). rewrite length_insert. now apply IH in H.
  - destruct H as (s1 & cs1 & H1 & H2).
    apply IH1 in H1. apply IH2 in H2. congruence.
Qed.

Lemma taken_app t s' : taken (t +:+ s') s' = t.
Proof.
  unfold taken. rewrite append_length.
  replace (String.length t + String.length s' - String.length s')%nat
    with (String.length t) by lia.
  induction t as [|a t IH]; [now destruct s'|].
  rewrite append_cons. simpl. now f_equal.
Qed.

End Matcher.

(** The two patterns on the lines quoted in the sources. *)

Example chop_lineRE_shiny :
  Regexp.FindStringSubmatch 5 Chop.lineRE
    ".pkicon.pkicon-001.color-shiny { width: 20px; height: 19px; background-position: 0px -56px; }"
  = Some [".pkicon.pkicon-001.color-shiny { width: 20px; height: 19px; background-position: 0px -56px;";
          "001.color-shiny"; "20"; "19"; "0"; "-56"].
Proof. vm_compute. reflexivity. Qed.

Example chop_lineRE_ball :
  Regexp.FindStringSubmatch 5 Chop.lineRE
    ".pkicon.pkicon-ball-love { width: 18px; height: 18px; background-position: 0px 0px; }"
  = Some [".pkicon.pkicon-ball-love { width: 18px; height: 18px; background-position: 0px 0px;";
          "ball-love"; "18"; "18"; "0"; "0"].
Proof. vm_compute. reflexivity. Qed.

Example chop_lineRE_no_position :
  Regexp.FindStringSubmatch 5 Chop.lineRE
    ".pkicon.pkicon-001 { width: 20px; height: 19px; }" = None.
Proof. vm_compute. reflexivity. Qed.

Example positions_lineRE_full :
  Regexp.FindStringSubmatch 8 Positions.lineRE
    ".pkicon.pkicon-025.form-cap.game-family-legends_arceus.color-shiny { width: 21px; height: 20px; background-position: -67px -56px; }"
  = Some [".pkicon.pkicon-025.form-cap.game-family-legends_arceus.color-shiny { width: 21px; height: 20px; background-position: -67px -56px; }";
          "025"; "cap"; "legends_arceus"; "shiny"; "21"; "20"; "-67"; "-56"].
Proof. vm_compute. reflexivity. Qed.

Example positions_lineRE_ball :
  Regexp.FindStringSubmatch 8 Positions.lineRE
    ".pkicon.pkicon-ball-love { width: 18px; height: 18px; background-position: 0px 0px; }"
  = None.
Proof. vm_compute. reflexivity. Qed.

(** ** Decimal numerals *)

Section Decimals.
Import GoStr Regexp Spec.

Lemma digit_char a d :
  digit a = true -> exists d', uint_of_char a (Some d) = Some d'.
Proof.
  destruct a as [[] [] [] [] [] [] [] []]; try discriminate; intros _;
    eexists; reflexivity.
Qed.

Lemma digits_parse s :
  allChars digit s = true -> exists d, NilEmpty.uint_of_string s = Some d.
Proof.
  induction s as [|a s IH]; simpl; [eauto|].
  intros [Ha Hs]%andb_prop. destruct (IH Hs) as [d ->].
  now apply digit_char.
Qed.

Lemma Atoi_digits s :
  s <> "" -> allChars digit s = true ->
  Atoi s = Z.min (decimalValue s) GoInt.max_int.
Proof.
  intros Hne Hs. destruct (digits_parse s Hs) as [d Hd].
  unfold decimalValue. rewrite Hd.
  destruct s as [|a s]; [done|].
  apply andb_prop in Hs as [Ha _]. unfold Atoi.
  destruct a as [[] [] [] [] [] [] [] []]; try discriminate; now rewrite Hd.
Qed.









End Decimals.

(** ** The position table *)

Section PositionTable.
Import GoStr Regexp Spec Positions.

Lemma optional_group l n c s cs s' cs' :
  matches (Opt (Cat (Lit l) (Grp n (Plus c)))) s cs s' cs' ->
  (n < length cs)%nat ->
  sub cs' n = sub cs n \/ allChars c (sub cs' n) = true.
Proof.
  intros [(s1 & cs1 & [_ ->] & cs2 & (t & -> & _ & Ht & ->) & ->) | [_ ->]] Hn;
    [right | now left].
  unfold sub. rewrite list_lookup_insert_eq by done. simpl.
  now rewrite taken_app.
Qed.


(** What the pattern says of the first three submatches. *)
Lemma lineRE_captures line m :
  FindStringSubmatch 8 lineRE line = Some m ->
  (sub m 1 <> "" /\ allChars digit (sub m 1) = true) /\
  (sub m 2 = "" \/ allChars nameChar (sub m 2) = true) /\
  (sub m 3 = "" \/ allChars nameChar (sub m 3) = true).
Proof.
  intros H. apply FindStringSubmatch_sound in H as (s0 & s' & cs' & Hm & ->).
  unfold lineRE in Hm. cbn [seq] in Hm.
  destruct Hm as (s1 & cs1 & [_ ->] & s2 & cs2 & Hid & Htail).
  destruct Hid as (cs1' & (t & -> & Hne & Ht & ->) & ->).
  rewrite taken_app in Htail.
  pose proof (matches_frame _ _ _ _ _ 1%nat Htail ltac:(compute_done)) as F1.
  destruct Htail as (s3 & cs3 & Hform & Htail).
  pose proof (matches_frame _ _ _ _ _ 2%nat Htail ltac:(compute_done)) as F2.
  pose proof (matches_length _ _ _ _ _ Hform) as L3.
  pose proof (matches_frame _ _ _ _ _ 3%nat Hform ltac:(compute_done)) as F3'.
  destruct Htail as (s4 & cs4 & Hfamily & Htail).
  pose proof (matches_frame _ _ _ _ _ 3%nat Htail ltac:(compute_done)) as F3.
  apply optional_group in Hform; [|simpl; lia].
  apply optional_group in Hfamily; [|rewrite L3; simpl; lia].
  unfold sub in *.
  rewrite !list_lookup_insert_ne by done.
  split; [|split].
  - rewrite F1. done.
  - rewrite F2. destruct Hform as [->|Hform]; [now left | now right].
  - rewrite F3. destruct Hfamily as [->|Hf]; [left | now right].
    now rewrite F3'.
Qed.



Lemma keyOf_formula m :
  keyOf m
  = "pokemon-" +:+ Itoa (atoi (sub m 1))
    +:+ (if String.eqb (sub m 2) "" then "" else "-" +:+ sub m 2)
    +:+ (if String.eqb (sub m 3) "" then "" else "-" +:+ sub m 3)
    +:+ (if String.eqb (sub m 4) "shiny" then "-shiny" else "").
Proof.
  unfold keyOf.
  destruct (String.eqb (sub m 2) ""), (String.eqb (sub m 3) ""),
    (String.eqb (sub m 4) "shiny"); cbn [negb];
    rewrite ?append_assoc, ?append_empty_l, ?append_empty_r; reflexivity.
Qed.

(** The loop, read as a fold over the matched lines. *)
Lemma extract_fold lines : forall positions order,
  fold_left extractLine lines (positions, order)
  = (fold_left (fun ps m => <[keyOf m := positionOf m]> ps)
       (omap (FindStringSubmatch 8 lineRE) lines) positions,
     order ++ (keyOf <$> omap (FindStringSubmatch 8 lineRE) lines)).
Proof.
  induction lines as [|line lines IH]; intros positions order.
  - simpl. now rewrite app_nil_r.
  - cbn [fold_left omap list_omap]. unfold extractLine at 2.
    destruct (FindStringSubmatch 8 lineRE line) as [m|]; [|apply IH].
    cbn [fst snd]. rewrite IH. cbn [fold_left fmap list_fmap].
    now rewrite <- app_assoc.
Qed.

Lemma fold_insert_lookup rules : forall (positions : gmap string SpritePosition) k,
  fold_left (fun ps m => <[keyOf m := positionOf m]> ps) rules positions !! k
  = match last (filter (fun m => keyOf m = k) rules) with
    | Some m => Some (positionOf m)
    | None => positions !! k
    end.
Proof.
  induction rules as [|m rules IH]; intros positions k; [done|].
  cbn [fold_left]. rewrite IH, filter_cons.
  destruct (decide (keyOf m = k)) as [Hk|Hk].
  - rewrite last_cons. destruct (last _); [done|].
    rewrite Hk. apply lookup_insert_eq.
  - destruct (last _); [done|]. now apply lookup_insert_ne.
Qed.

End PositionTable.

Section Filters.
Context {A : Type} (P : A -> Prop) `{forall x, Decision (P x)}.

Lemma filter_none (l : list A) : (forall x, x ∈ l -> ~ P x) -> filter P l = [].
Proof.
  induction l as [|x l IH]; intros Hl; [done|].
  rewrite filter_cons, decide_False by (apply Hl; left).
  apply IH. intros y Hy. apply Hl. now right.
Qed.

End Filters.

Lemma filter_fmap_length {A B : Type} `{EqDecision B} (f : A -> B) (k : B) (l : list A) :
  length (filter (fun y => y = k) (f <$> l)) = length (filter (fun x => f x = k) l).
Proof.
  induction l as [|x l IH]; [done|].
  cbn [fmap list_fmap]. rewrite !filter_cons.
  destruct (decide (f x = k)); simpl; now rewrite IH.
Qed.

Lemma positions_order_of_rules scss :
  snd (Positions.extractSpritePositions scss)
  = Positions.keyOf
      <$> omap (Regexp.FindStringSubmatch 8 Positions.lineRE)
            (GoStr.Split scss Chop.newline).
Proof. unfold Positions.extractSpritePositions. now rewrite extract_fold. Qed.

(** C7, as amended.  In the rule parser of the position-table generator,
    when several matching lines resolve to the same key the mapping keeps
    the data of the last of them (later rules overwrite earlier ones),
    while the discovery-order sequence receives the key once for every
    matching line, in line order: a key produced by [n] lines stands [n]
    times in the order. *)
Theorem positions_last_rule_wins scss :
  let rules :=
    omap (Regexp.FindStringSubmatch 8 Positions.lineRE) (GoStr.Split scss Chop.newline) in
  let positions := fst (Positions.extractSpritePositions scss) in
  let order := snd (Positions.extractSpritePositions scss) in
  order = Positions.keyOf <$> rules /\
  (forall k,
     positions !! k
     = Positions.positionOf <$> last (filter (fun m => Positions.keyOf m = k) rules)) /\
  (forall before m after,
     rules = before ++ m :: after ->
     (forall m', m' ∈ after -> Positions.keyOf m' <> Positions.keyOf m) ->
     positions !! Positions.keyOf m = Some (Positions.positionOf m)) /\
  (forall k,
     length (filter (fun x => x = k) order)
     = length (filter (fun m => Positions.keyOf m = k) rules)).
Proof.
  intros rules positions order.
  assert (Hfold : Positions.extractSpritePositions scss
                  = (fold_left (fun ps m => <[Positions.keyOf m := Positions.positionOf m]> ps)
                       rules ∅,
                     Positions.keyOf <$> rules)).
  { unfold Positions.extractSpritePositions. now rewrite extract_fold. }
  assert (Horder : order = Positions.keyOf <$> rules).
  { unfold order. now rewrite Hfold. }
  assert (Hlookup : forall k,
             positions !! k
             = Positions.positionOf
                 <$> last (filter (fun m => Positions.keyOf m = k) rules)).
  { intros k. unfold positions. rewrite Hfold. cbn [fst].
    rewrite fold_insert_lookup. now destruct (last _). }
  split; [exact Horder|]. split; [exact Hlookup|]. split.
  - intros before m after Hrules Hafter. rewrite Hlookup, Hrules.
    rewrite filter_app, filter_cons, decide_True by done.
    rewrite (filter_none _ after) by (intros m' Hm'; now apply Hafter).
    now rewrite last_snoc.
  - intros k. rewrite Horder. apply filter_fmap_length.
Qed.

Lemma positions_last_rule_wins_witness :
  fst (Positions.extractSpritePositions Sample.twice) !! "pokemon-1"
  = Some {| Positions.Width := 21; Positions.Height := 22;
            Positions.BackgroundPosition := "-20px 0px" |}.
Proof.
  pose proof (positions_last_rule_wins Sample.twice) as (_ & _ & Hlast & _).
  apply (Hlast
           [[Sample.rule001; "001"; ""; ""; ""; "20"; "19"; "0"; "-56"]]
           [Sample.rule1; "1"; ""; ""; ""; "21"; "22"; "-20"; "0"] []).
  - vm_compute. reflexivity.
  - intros m' Hm'. now apply elem_of_nil in Hm'.
Defined.

(** Two rules for the key [pokemon-1]: the key stands twice in the order,
    not once at its first place. *)
Lemma positions_order_counterexample :
  snd (Positions.extractSpritePositions Sample.twice) = ["pokemon-1"; "pokemon-1"]
  /\ ~ NoDup (snd (Positions.extractSpritePositions Sample.twice)).
Proof.
  assert (H : snd (Positions.extractSpritePositions Sample.twice)
              = ["pokemon-1"; "pokemon-1"]).
  { pose proof (positions_order_of_rules Sample.twice) as ->. vm_compute. reflexivity. }
  split; [exact H|]. rewrite H. intros Hd.
  apply NoDup_cons in Hd as [Hd _]. apply Hd. left.
Qed.



(** * Further properties of the two commands *)

(** ** Loops that keep a relation *)

Section LoopInvariant.
Import IO.
Context {A S : Type} (body : A -> S -> Step S) (world : S -> World).
Context (R : World -> World -> Prop) `{!Reflexive R} `{!Transitive R}.

Lemma forEach_keeps :
  (forall a s, match body a s with
               | Next s' => R (world s) (world s')
               | Abort wd => R (world s) wd
               end) ->
  forall l s, match forEach body l s with
              | Next s' => R (world s) (world s')
              | Abort wd => R (world s) wd
              end.
Proof.
  intros Hbody l. induction l as [|a l IH]; intros s; cbn [forEach]; [done|].
  specialize (Hbody a s). destruct (body a s) as [s1|wd1]; [|done].
  specialize (IH s1). destruct (forEach body l s1); by etrans.
Qed.

End LoopInvariant.

Section Continuation.
Import IO Extra.

#[export] Instance continues_refl : Reflexive continues.
Proof. intros wd. by repeat split. Qed.

#[export] Instance continues_trans : Transitive continues.
Proof.
  intros a b c (? & ? & ?) (? & ? & ?). repeat split; [congruence | by etrans ..].
Qed.

#[export] Instance continuesQuietly_refl : Reflexive continuesQuietly.
Proof. intros wd. by repeat split. Qed.

#[export] Instance continuesQuietly_trans : Transitive continuesQuietly.
Proof.
  intros a b c (? & ? & ?) (? & ? & ?).
  repeat split; [congruence | by etrans | congruence].
Qed.

Lemma continues_addFile f wd : continuesQuietly wd (addFile f wd).
Proof. repeat split. by apply prefix_app_r. Qed.

Lemma continues_eprintln msg wd : continues wd (eprintln msg wd).
Proof. repeat split; [done|]. by apply prefix_app_r. Qed.

Lemma continuesQuietly_continues wd wd' : continuesQuietly wd wd' -> continues wd wd'.
Proof. intros (? & ? & Herr). repeat split; [done..|]. by rewrite Herr. Qed.

End Continuation.

(** ** Grid mode: every outcome *)

Section GridOutcomes.
Import GoInt GoStr IO Chop Spec Extra.
Variables (env : Env) (data : Data) (cellW cellH : Z).



(** The step at an entry that is not skipped. *)
Lemma jsonEntry_emit_cases p i wd :
  Skip p = false -> Columns data <> 0 ->
  jsonEntry env data cellW cellH p (i, wd)
  = if negb (NewRGBA_ok env (wrap (cellW - 2 * Padding data))
               (wrap (cellH - 2 * Padding data)))
    then Abort wd
    else if negb (Create_ok env (jsonOutName data p)) then Abort wd
    else if negb (Encode_ok env (wrap (cellW - 2 * Padding data))
                    (wrap (cellH - 2 * Padding data)))
    then Abort (addFile {| fpath := jsonOutName data p; fimage := None |} wd)
    else Next (wrap (i + 1),
               addFile {| fpath := jsonOutName data p;
                          fimage := Some (sourceRect data cellW cellH i) |} wd).
Proof.
  intros Hs Hc. unfold jsonEntry. rewrite Hs.
  rewrite quo_nonzero, rem_nonzero by done.
  by rewrite !inset_formula, !corner_formula.
Qed.

(** The files of the loop, whatever the answers of the environment: a
    prefix of the plan, and after it at most one file left empty by a
    failed encoding. *)
Lemma jsonLoop_files l : forall i wd,
  Columns data <> 0 ->
  match forEach (jsonEntry env data cellW cellH) l (i, wd) with
  | Next (j, wd') =>
      j = cursorFrom i l /\ files wd' = files wd ++ plan data cellW cellH i l
  | Abort wd' =>
      exists n extra,
        (n < length (plan data cellW cellH i l))%nat
        /\ files wd' = files wd ++ take n (plan data cellW cellH i l) ++ extra
        /\ (extra = []
            \/ exists path, extra = [{| fpath := path; fimage := None |}])
  end.
Proof.
  induction l as [|p l IH]; intros i wd Hc; cbn [forEach].
  { split; [done|]. simpl. by rewrite app_nil_r. }
  unfold cursorFrom. cbn [plan fold_left]. fold (cursorFrom (wrap (i + slots p)) l).
  destruct (Skip p) eqn:Hs.
  { rewrite jsonEntry_skip by done. by apply IH. }
  rewrite jsonEntry_emit_cases by done.
  set (f := {| fpath := jsonOutName data p;
               fimage := Some (sourceRect data cellW cellH i) |}).
  destruct (NewRGBA_ok env _ _); cbn [negb].
  2:{ exists 0%nat, []. split; [simpl; lia|]. split; [by rewrite app_nil_r | by left]. }
  destruct (Create_ok env _); cbn [negb].
  2:{ exists 0%nat, []. split; [simpl; lia|]. split; [by rewrite app_nil_r | by left]. }
  destruct (Encode_ok env _ _); cbn [negb].
  2:{ exists 0%nat, [{| fpath := jsonOutName data p; fimage := None |}].
      split; [simpl; lia|]. split; [done|]. right. by eexists. }
  unfold slots. rewrite Hs.
  specialize (IH (wrap (i + 1)) (addFile f wd) Hc).
  destruct (forEach _ l _) as [[j wd']|wd'].
  - destruct IH as [-> ->]. split; [done|]. cbn [addFile files].
    by rewrite <- app_assoc.
  - destruct IH as (n & extra & Hn & -> & Hextra).
    exists (S n), extra. split; [simpl; lia|]. split; [|done].
    cbn [addFile files take]. by rewrite <- !app_assoc.
Qed.

End GridOutcomes.



(** X2.  A sheet description with zero rows or zero columns makes grid mode
    panic (integer division by zero) before any file is created, even when
    its list of entries is empty. *)
Theorem chopFromJSON_zero_grid env filename raw data sheet img wd :
  Chop.ReadFile env filename = Some raw ->
  Chop.Unmarshal env raw = Some data ->
  Chop.Open env (Chop.Filename data) = Some sheet ->
  Chop.Decode env sheet = Some img ->
  Chop.Rows data = 0 \/ Chop.Columns data = 0 ->
  Chop.chopFromJSON env filename wd = IO.Panicked wd.
Proof.
  intros Hraw Hdata Hopen Himg Hzero. unfold Chop.chopFromJSON.
  rewrite Hraw, Hdata, Hopen, Himg.
  unfold Chop.cellHeight, Chop.cellWidth, GoInt.quo.
  destruct Hzero as [-> | ->]; cbn [Z.eqb]; [done|].
  by destruct (Chop.Rows data =? 0).
Qed.

Lemma chopFromJSON_zero_grid_witness :
  Chop.chopFromJSON MoreSamples.noColumnsEnv "sheet.json" Sample.emptyWorld
  = IO.Panicked Sample.emptyWorld.
Proof.
  apply (chopFromJSON_zero_grid MoreSamples.noColumnsEnv "sheet.json" "{}"
           MoreSamples.noColumns "png" Sample.sheetImage);
    try reflexivity.
  right. reflexivity.
Defined.

(** X3.  In grid mode, once the inputs are read and the grid is not
    degenerate, the files written are those of the plan, in its order: all
    of them when the run returns; when it panics, a proper prefix of them,
    followed by at most one file that was created and left empty. *)
Theorem chopFromJSON_files env filename raw data sheet img wd :
  Chop.ReadFile env filename = Some raw ->
  Chop.Unmarshal env raw = Some data ->
  Chop.Open env (Chop.Filename data) = Some sheet ->
  Chop.Decode env sheet = Some img ->
  Chop.Rows data <> 0 -> Chop.Columns data <> 0 ->
  let expected :=
    Spec.plan data (Spec.gridCellWidth data img) (Spec.gridCellHeight data img)
      0 (Chop.PokemonList data) in
  match Chop.chopFromJSON env filename wd with
  | IO.Returned wd' => IO.files wd' = IO.files wd ++ expected
  | IO.Panicked wd' =>
      exists n extra,
        (n < length expected)%nat
        /\ IO.files wd' = IO.files wd ++ take n expected ++ extra
        /\ (extra = []
            \/ exists path, extra = [{| IO.fpath := path; IO.fimage := None |}])
  | IO.Exited _ _ => False
  end.
Proof.
  intros Hraw Hdata Hopen Himg Hr Hc expected. unfold Chop.chopFromJSON.
  rewrite Hraw, Hdata, Hopen, Himg.
  destruct (cell_sizes data img Hr Hc) as [-> ->].
  pose proof (jsonLoop_files env data (Spec.gridCellWidth data img)
                (Spec.gridCellHeight data img) (Chop.PokemonList data) 0 wd Hc) as H.
  unfold Chop.jsonLoop. destruct (IO.forEach _ _ _) as [[j wd']|wd']; [|exact H].
  by destruct H.
Qed.

Lemma chopFromJSON_files_witness :
  match Chop.chopFromJSON MoreSamples.flakyEnv "sheet.json" Sample.emptyWorld with
  | IO.Returned wd' =>
      IO.files wd'
      = IO.files Sample.emptyWorld
        ++ Spec.plan Sample.sheet 9 9 0 (Chop.PokemonList Sample.sheet)
  | IO.Panicked wd' =>
      exists n extra,
        (n < length (Spec.plan Sample.sheet 9 9 0 (Chop.PokemonList Sample.sheet)))%nat
        /\ IO.files wd'
           = IO.files Sample.emptyWorld
             ++ take n (Spec.plan Sample.sheet 9 9 0 (Chop.PokemonList Sample.sheet))
             ++ extra
        /\ (extra = []
            \/ exists path, extra = [{| IO.fpath := path; IO.fimage := None |}])
  | IO.Exited _ _ => False
  end.
Proof.
  apply (chopFromJSON_files MoreSamples.flakyEnv "sheet.json" "{}" Sample.sheet "png"
           Sample.sheetImage Sample.emptyWorld);
    try reflexivity; vm_compute; congruence.
Defined.

(** ** What the groups of a pattern capture *)

Section Captures.
Import GoStr Regexp Spec Extra.

Lemma capturesOnly_keeps r n Q :
  capturesOnly r n Q ->
  forall s cs s' cs',
    matches r s cs s' cs' -> (n < length cs)%nat ->
    sub cs' n = sub cs n \/ Q (sub cs' n).
Proof.
  induction r as [l|c|c|r IH|k r IH|r1 IH1 r2 IH2]; intros HQ s cs s' cs' H Hn;
    cbn [matches capturesOnly] in *.
  - destruct H as [_ ->]. by left.
  - destruct H as (t & _ & _ & ->). by left.
  - destruct H as (t & _ & _ & _ & ->). by left.
  - destruct H as [H|[_ ->]]; [by apply (IH HQ s cs s') | by left].
  - destruct H as (cs1 & H & ->). destruct HQ as [HQ Hk].
    destruct (decide (k = n)) as [->|Hkn].
    + right. unfold sub. rewrite list_lookup_insert_eq.
      * by apply (Hk eq_refl s cs s' cs1).
      * by rewrite (matches_length _ _ _ _ _ H).
    + unfold sub at 1 3. rewrite list_lookup_insert_ne by done.
      by apply (IH HQ s cs s').
  - destruct H as (s1 & cs1 & H1 & H2). destruct HQ as [HQ1 HQ2].
    pose proof (matches_length _ _ _ _ _ H1) as Hlen.
    destruct (IH2 HQ2 s1 cs1 s' cs' H2) as [->|]; [lia| |by right].
    by apply (IH1 HQ1 s cs s1).
Qed.

Lemma capturesOnly_sets r n Q :
  capturesOnly r n Q -> alwaysCaptures r n = true ->
  forall s cs s' cs',
    matches r s cs s' cs' -> (n < length cs)%nat -> Q (sub cs' n).
Proof.
  induction r as [l|c|c|r IH|k r IH|r1 IH1 r2 IH2]; intros HQ Hset s cs s' cs' H Hn;
    cbn [matches capturesOnly alwaysCaptures] in *; try done.
  - destruct H as (cs1 & H & ->). destruct HQ as [HQ Hk].
    destruct (decide (k = n)) as [->|Hkn].
    + unfold sub. rewrite list_lookup_insert_eq.
      * by apply (Hk eq_refl s cs s' cs1).
      * by rewrite (matches_length _ _ _ _ _ H).
    + unfold sub. rewrite list_lookup_insert_ne by done.
      apply (IH HQ) with s cs s'; [|done..].
      apply orb_true_iff in Hset as [Hset|Hset]; [|done].
      by apply Nat.eqb_eq in Hset.
  - destruct H as (s1 & cs1 & H1 & H2). destruct HQ as [HQ1 HQ2].
    pose proof (matches_length _ _ _ _ _ H1) as Hlen.
    destruct (alwaysCaptures r2 n) eqn:H2set.
    + apply (IH2 HQ2 eq_refl s1 cs1 s' cs' H2). lia.
    + rewrite orb_false_r in Hset.
      destruct (capturesOnly_keeps r2 n Q HQ2 s1 cs1 s' cs' H2) as [->|]; [lia| |done].
      by apply (IH1 HQ1 Hset s cs s1).
Qed.

(** The leftmost match gives every group that always takes part a text
    with the property of that group. *)
Lemma FindStringSubmatch_sets g r n Q line m :
  capturesOnly r n Q -> alwaysCaptures r n = true ->
  (0 < n <= g)%nat ->
  FindStringSubmatch g r line = Some m -> Q (sub m n).
Proof.
  intros HQ Hset Hn Hm.
  apply FindStringSubmatch_sound in Hm as (s0 & s' & cs' & Hm & ->).
  unfold sub. rewrite list_lookup_insert_ne by lia.
  apply (capturesOnly_sets r n Q HQ Hset s0 _ s' cs' Hm).
  rewrite length_replicate. lia.
Qed.

Lemma plus_takes c s cs s' cs' :
  matches (Plus c) s cs s' cs' -> taken s s' <> "" /\ allChars c (taken s s') = true.
Proof.
  intros (t & -> & Ht & Hc & _). by rewrite taken_app.
Qed.

Lemma signedNumber_takes s cs s' cs' :
  matches Chop.signedNumber s cs s' cs' -> isSignedNumber (taken s s').
Proof.
  intros (s1 & cs1 & Hsign & (t & -> & Ht & Hc & _)).
  exists t. split; [done|].
  destruct Hsign as [[-> _]|[<- _]].
  - right. by rewrite <- append_assoc, taken_app.
  - left. by rewrite taken_app.
Qed.

End Captures.

Lemma chop_lineRE_groups line m :
  Regexp.FindStringSubmatch 5 Chop.lineRE line = Some m ->
  Extra.isSelector (Regexp.sub m 1)
  /\ Extra.isNumber (Regexp.sub m 2) /\ Extra.isNumber (Regexp.sub m 3)
  /\ Extra.isSignedNumber (Regexp.sub m 4) /\ Extra.isSignedNumber (Regexp.sub m 5).
Proof.
  intros Hm.
  split; [|split; [|split; [|split]]].
  all: match goal with
       | |- ?Q (Regexp.sub _ ?n) =>
           apply (FindStringSubmatch_sets 5 Chop.lineRE n Q line m);
             [|reflexivity|lia|exact Hm]
       end.
  all: cbn; repeat match goal with |- _ /\ _ => split end; try done;
    intros _ s cs s' cs' H.
  all: first [ by apply signedNumber_takes in H
             | by apply plus_takes in H ].
Qed.

(** X4.  Whenever the pattern of [chopFromSCSS] matches a line, the
    selector it captures is a non-empty text without white space or opening
    brace, the width and the height are non-empty strings of digits, and the
    two offsets are such strings with an optional minus sign. *)
Theorem chop_lineRE_captures line m :
  Regexp.FindStringSubmatch 5 Chop.lineRE line = Some m ->
  Extra.isSelector (Regexp.sub m 1)
  /\ Extra.isNumber (Regexp.sub m 2) /\ Extra.isNumber (Regexp.sub m 3)
  /\ Extra.isSignedNumber (Regexp.sub m 4) /\ Extra.isSignedNumber (Regexp.sub m 5).
Proof. exact (chop_lineRE_groups line m). Qed.

Lemma chop_lineRE_captures_witness :
  Extra.isSelector "001.color-shiny"
  /\ Extra.isNumber "68" /\ Extra.isNumber "56"
  /\ Extra.isSignedNumber "-136" /\ Extra.isSignedNumber "0".
Proof.
  apply (chop_lineRE_captures
           ".pkicon.pkicon-001.color-shiny { width: 68px; height: 56px; background-position: -136px 0px; }"
           [".pkicon.pkicon-001.color-shiny { width: 68px; height: 56px; background-position: -136px 0px;";
            "001.color-shiny"; "68"; "56"; "-136"; "0"]).
  vm_compute. reflexivity.
Defined.

(** ** The numbers of a rule *)

Section RuleNumbers.
Import GoInt GoStr Regexp Spec Extra.

Lemma scanNumber_digits s : allChars digit s = true -> scanNumber s = s.
Proof.
  induction s as [|a s IH]; [done|]. cbn [allChars scanNumber].
  intros [Ha Hs]%andb_prop. unfold digit, between in Ha. rewrite Ha.
  cbn [orb]. by rewrite IH.
Qed.

Lemma of_uint_nonneg d : 0 <= Z.of_uint d.
Proof. unfold Z.of_uint. lia. Qed.

Lemma decimalValue_nonneg s : 0 <= decimalValue s.
Proof.
  unfold decimalValue. destruct (NilEmpty.uint_of_string s); [|done].
  apply of_uint_nonneg.
Qed.

(** [Sscanf] on a string of digits. *)
Lemma Sscanf_d_number s :
  isNumber s ->
  Sscanf_d s = if decimalValue s <=? max_int then Some (decimalValue s) else None.
Proof.
  intros [Hne Hs]. destruct (digits_parse s Hs) as [d Hd].
  pose proof (scanNumber_digits s Hs) as Hscan.
  pose proof (of_uint_nonneg d) as Hd0.
  unfold decimalValue. rewrite Hd.
  destruct s as [|a s]; [done|].
  assert (Sscanf_d (String a s)
          = match scanNumber (String a s) with
            | "" => None
            | tok =>
                match NilEmpty.uint_of_string tok with
                | Some d =>
                    if (min_int <=? Z.of_uint d) && (Z.of_uint d <=? max_int)
                    then Some (Z.of_uint d) else None
                | None => None
                end
            end) as ->.
  { apply andb_prop in Hs as [Ha _]. unfold Sscanf_d.
    destruct a as [[] [] [] [] [] [] [] []]; try discriminate; reflexivity. }
  rewrite Hscan, Hd.
  replace (min_int <=? Z.of_uint d) with true; [done|].
  symmetry. apply Z.leb_le. unfold min_int. lia.
Qed.

(** [Sscanf] on a minus sign and a string of digits. *)
Lemma Sscanf_d_minus t :
  isNumber t ->
  Sscanf_d ("-" +:+ t)
  = if decimalValue t <=? - min_int then Some (- decimalValue t) else None.
Proof.
  intros [Hne Ht]. destruct (digits_parse t Ht) as [d Hd].
  pose proof (of_uint_nonneg d) as Hd0.
  rewrite append_cons, append_empty_l. unfold Sscanf_d, decimalValue.
  rewrite (scanNumber_digits t Ht), Hd.
  destruct t as [|a t]; [done|]. rewrite Hd.
  replace (- Z.of_uint d <=? max_int) with true
    by (symmetry; apply Z.leb_le; unfold max_int; lia).
  rewrite andb_true_r.
  destruct (Z.leb_spec min_int (- Z.of_uint d)), (Z.leb_spec (Z.of_uint d) (- min_int));
    try done; lia.
Qed.

Lemma atoi_in_range s : in_range (Chop.atoi s).
Proof.
  unfold Chop.atoi, Sscanf_d.
  destruct (match s with
            | String "-" t => (true, t)
            | String "+" t => (false, t)
            | _ => (false, s)
            end) as [negative body].
  destruct (scanNumber body); [by compute|].
  destruct (NilEmpty.uint_of_string _) as [d|]; [|by compute].
  destruct (_ && _) eqn:Hin; [|by compute].
  apply andb_prop in Hin as [?%Z.leb_le ?%Z.leb_le]. by split.
Qed.

Lemma atoi_number_nonneg s : isNumber s -> 0 <= Chop.atoi s.
Proof.
  intros Hs. unfold Chop.atoi. rewrite Sscanf_d_number by done.
  pose proof (decimalValue_nonneg s). by destruct (_ <=? _).
Qed.

End RuleNumbers.

(** X5.  On a string of digits the two [atoi] helpers agree as long as the
    number fits an [int]: both give its value.  Beyond that they differ:
    the one of [chop] gives [0], the one of [positions] the largest [int]. *)
Theorem atoi_helpers_compared s :
  Extra.isNumber s ->
  (Spec.decimalValue s <= GoInt.max_int ->
   Chop.atoi s = Spec.decimalValue s /\ Positions.atoi s = Spec.decimalValue s)
  /\ (GoInt.max_int < Spec.decimalValue s ->
      Chop.atoi s = 0 /\ Positions.atoi s = GoInt.max_int).
Proof.
  intros Hs. unfold Chop.atoi, Positions.atoi.
  rewrite (Sscanf_d_number s Hs). destruct Hs as [Hne Hs].
  rewrite (Atoi_digits s Hne Hs).
  split; intros Hv.
  - rewrite Z.min_l by done.
    by destruct (Z.leb_spec (Spec.decimalValue s) GoInt.max_int); [|lia].
  - rewrite Z.min_r by lia.
    by destruct (Z.leb_spec (Spec.decimalValue s) GoInt.max_int); [lia|].
Qed.

Lemma atoi_helpers_compared_witness :
  (Spec.decimalValue "9223372036854775808" <= GoInt.max_int ->
   Chop.atoi "9223372036854775808" = Spec.decimalValue "9223372036854775808"
   /\ Positions.atoi "9223372036854775808" = Spec.decimalValue "9223372036854775808")
  /\ (GoInt.max_int < Spec.decimalValue "9223372036854775808" ->
      Chop.atoi "9223372036854775808" = 0
      /\ Positions.atoi "9223372036854775808" = GoInt.max_int).
Proof.
  apply (atoi_helpers_compared "9223372036854775808").
  split; [discriminate | reflexivity].
Defined.

(** ** Stylesheet mode: every outcome *)

Section StylesheetOutcomes.
Import GoInt GoStr Regexp IO Chop Spec Extra.
Variables (env : Env) (img : Image).

#[export] Instance growsInBounds_refl : Reflexive (growsInBounds img).
Proof.
  intros wd. split; [done|]. exists []. by rewrite app_nil_r.
Qed.

#[export] Instance growsInBounds_trans : Transitive (growsInBounds img).
Proof.
  intros a b c [Hab (n1 & Hn1 & Hb1)] [Hbc (n2 & Hn2 & Hb2)].
  split; [by etrans|]. exists (n1 ++ n2).
  split; [by rewrite Hn2, Hn1, <- app_assoc | by apply Forall_app].
Qed.

Lemma add_le_cases a b d :
  0 <= a -> 0 <= b -> (add a b >? d) = false ->
  a + b <= d \/ max_int < a + b.
Proof.
  intros Ha Hb Hle. destruct (Z.le_gt_cases (a + b) max_int) as [Hfit|]; [|lia].
  left. unfold add in Hle. rewrite wrap_small in Hle.
  - rewrite Z.gtb_ltb in Hle. by apply Z.ltb_ge in Hle.
  - unfold in_range, min_int. lia.
Qed.

Lemma scssLine_grows line wd :
  match scssLine env img line wd with
  | Next wd' | Abort wd' => growsInBounds img wd wd'
  end.
Proof.
  unfold scssLine.
  destruct (FindStringSubmatch 5 lineRE line) as [m|] eqn:Hm; [|reflexivity].
  destruct (chop_lineRE_groups line m Hm) as (_ & Hw & Hh & _).
  apply atoi_number_nonneg in Hw, Hh.
  destruct (String.eqb _ ""); [reflexivity|].
  destruct (_ || _) eqn:Hb.
  { split; [apply continues_eprintln|]. exists []. by rewrite app_nil_r. }
  apply orb_false_elim in Hb as [Hb Hy].
  apply orb_false_elim in Hb as [Hb Hx].
  apply orb_false_elim in Hb as [Hsx%Z.ltb_ge Hsy%Z.ltb_ge].
  destruct (NewRGBA_ok env _ _); cbn [negb]; [|reflexivity].
  destruct (Create_ok env _); cbn [negb]; [|reflexivity].
  destruct (Encode_ok env _ _); cbn [negb].
  - split; [apply continuesQuietly_continues, continues_addFile|].
    eexists [_]. split; [done|]. apply Forall_singleton.
    unfold passedBounds. cbn [fimage srcX srcY cropW cropH].
    repeat split; try done; by apply add_le_cases.
  - split; [apply continuesQuietly_continues, continues_addFile|].
    eexists [_]. split; [done|]. by apply Forall_singleton.
Qed.

Lemma scssLoop_grows lines wd :
  match scssLoop env img lines wd with
  | Next wd' | Abort wd' => growsInBounds img wd wd'
  end.
Proof.
  unfold scssLoop.
  apply (forEach_keeps (scssLine env img) (fun wd => wd) (growsInBounds img)
           scssLine_grows lines wd).
Qed.

End StylesheetOutcomes.

Section StylesheetRuns.
Import GoInt GoStr Regexp IO Chop Spec Extra.
Variables (env : Env).

Lemma chopFromSCSS_cases scssPath wd :
  (chopFromSCSS env scssPath wd = Panicked wd)
  \/ exists raw sheet img,
       ReadFile env scssPath = Some raw
       /\ Open env (Join env (Dir env scssPath) "pokesprite.png") = Some sheet
       /\ Decode env sheet = Some img
       /\ chopFromSCSS env scssPath wd
          = match scssLoop env img (Split raw newline) wd with
            | Next wd' => Returned wd'
            | Abort wd' => Panicked wd'
            end.
Proof.
  unfold chopFromSCSS.
  destruct (ReadFile env scssPath) as [raw|]; [|by left].
  destruct (Open env _) as [sheet|]; [|by left].
  destruct (Decode env sheet) as [img|] eqn:Himg; [|by left].
  right. by exists raw, sheet, img.
Qed.


Lemma scssLine_unnamed img line wd :
  namedRule line = false -> scssLine env img line wd = Next wd.
Proof.
  unfold namedRule, scssLine.
  destruct (FindStringSubmatch 5 lineRE line) as [m|]; [|done].
  intros H. apply negb_false_iff in H. by rewrite H.
Qed.

(** What a named rule does: a diagnostic, a panic that leaves nothing or an
    empty file, or an encoded file. *)
Lemma scssLine_named img line wd :
  namedRule line = true ->
  match scssLine env img line wd with
  | Next wd' =>
      (exists msg, wd' = eprintln msg wd)
      \/ (exists f, encoded f /\ wd' = addFile f wd)
  | Abort wd' => wd' = wd \/ exists f, wd' = addFile f wd
  end.
Proof.
  unfold namedRule, scssLine.
  destruct (FindStringSubmatch 5 lineRE line) as [m|]; [|done].
  intros H. apply negb_true_iff in H. rewrite H.
  destruct (_ || _); [left; by eexists|].
  destruct (NewRGBA_ok env _ _); cbn [negb]; [|by left].
  destruct (Create_ok env _); cbn [negb]; [|by left].
  destruct (Encode_ok env _ _); cbn [negb]; right; [|by eexists].
  eexists. split; [|reflexivity]. by unfold encoded.
Qed.

Lemma scssLoop_outputs img lines : forall wd,
  match scssLoop env img lines wd with
  | Next wd' =>
      outputs wd' = (outputs wd + length (List.filter namedRule lines))%nat
  | Abort wd' =>
      (outputs wd <= outputs wd' <= outputs wd + length (List.filter namedRule lines))%nat
      /\ (0 < length (List.filter namedRule lines))%nat
  end.
Proof.
  unfold scssLoop.
  induction lines as [|line lines IH]; intros wd; cbn [List.filter forEach].
  { simpl. lia. }
  destruct (namedRule line) eqn:Hn.
  - pose proof (scssLine_named img line wd Hn) as H. cbn [length].
    destruct (scssLine env img line wd) as [wd1|wd1].
    + specialize (IH wd1).
      assert (outputs wd1 = S (outputs wd)) as Hout.
      { destruct H as [[msg ->]|(f & _ & ->)]; unfold outputs;
          cbn [eprintln addFile files stderr]; rewrite length_app; simpl; lia. }
      destruct (forEach _ lines wd1); lia.
    + split; [|lia].
      destruct H as [->|(f & ->)]; unfold outputs; cbn [addFile files stderr];
        rewrite ?length_app; simpl; lia.
  - rewrite scssLine_unnamed by done. apply IH.
Qed.

End StylesheetRuns.


(** X7.  Whatever the stylesheet says and however the run ends, every image
    stylesheet mode encodes has a rectangle with non-negative origin and
    sides that, along each axis, ends inside the sheet, unless origin plus
    side exceeds the largest [int], in which case the bounds test is passed
    by wrap-around. *)
Theorem chopFromSCSS_rectangles env scssPath sheet img wd :
  Chop.Open env (Chop.Join env (Chop.Dir env scssPath) "pokesprite.png") = Some sheet ->
  Chop.Decode env sheet = Some img ->
  match Chop.chopFromSCSS env scssPath wd with
  | IO.Returned wd' | IO.Panicked wd' =>
      exists new, IO.files wd' = IO.files wd ++ new
                  /\ Forall (Extra.passedBounds img) new
  | IO.Exited _ _ => False
  end.
Proof.
  intros Hsheet Himg.
  destruct (chopFromSCSS_cases env scssPath wd)
    as [->|(raw & sheet' & img' & _ & Hsheet' & Himg' & ->)].
  { exists []. by rewrite app_nil_r. }
  assert (img' = img) as -> by congruence.
  pose proof (scssLoop_grows env img (GoStr.Split raw Chop.newline) wd) as H.
  by destruct (Chop.scssLoop _ _ _ _); destruct H.
Qed.

Lemma chopFromSCSS_rectangles_witness :
  match Chop.chopFromSCSS MoreSamples.scssEnv "sheet/pokesprite.scss" Sample.emptyWorld with
  | IO.Returned wd' | IO.Panicked wd' =>
      exists new, IO.files wd' = IO.files Sample.emptyWorld ++ new
                  /\ Forall (Extra.passedBounds Sample.sheetImage) new
  | IO.Exited _ _ => False
  end.
Proof.
  apply (chopFromSCSS_rectangles MoreSamples.scssEnv "sheet/pokesprite.scss" "png"
           Sample.sheetImage Sample.emptyWorld); reflexivity.
Defined.

(** X8.  Lines that the pattern does not match, and rules whose selector
    gives no file name, have no effect at all: the loop of stylesheet mode
    does the same with and without them. *)
Theorem scssLoop_ignores_other_lines env img lines wd :
  Chop.scssLoop env img lines wd
  = Chop.scssLoop env img (List.filter Extra.namedRule lines) wd.
Proof.
  unfold Chop.scssLoop. revert wd.
  induction lines as [|line lines IH]; intros wd; [done|].
  cbn [List.filter IO.forEach]. destruct (Extra.namedRule line) eqn:Hn.
  - cbn [IO.forEach]. destruct (Chop.scssLine env img line wd); [apply IH | done].
  - rewrite scssLine_unnamed by done. apply IH.
Qed.


(** X9.  A run of stylesheet mode that returns has produced exactly one
    output for each named rule of the stylesheet: an image file or a skip
    diagnostic.  A run that panics after reading its inputs stopped at a
    named rule and has produced at most that many outputs. *)
Theorem chopFromSCSS_one_output_per_rule env scssPath raw sheet img wd :
  Chop.ReadFile env scssPath = Some raw ->
  Chop.Open env (Chop.Join env (Chop.Dir env scssPath) "pokesprite.png") = Some sheet ->
  Chop.Decode env sheet = Some img ->
  let rules := List.filter Extra.namedRule (GoStr.Split raw Chop.newline) in
  match Chop.chopFromSCSS env scssPath wd with
  | IO.Returned wd' => Extra.outputs wd' = (Extra.outputs wd + length rules)%nat
  | IO.Panicked wd' =>
      (Extra.outputs wd <= Extra.outputs wd' <= Extra.outputs wd + length rules)%nat
      /\ (0 < length rules)%nat
  | IO.Exited _ _ => False
  end.
Proof.
  intros Hraw Hsheet Himg rules. unfold Chop.chopFromSCSS.
  rewrite Hraw, Hsheet, Himg.
  pose proof (scssLoop_outputs env img (GoStr.Split raw Chop.newline) wd) as H.
  by destruct (Chop.scssLoop _ _ _ _).
Qed.

Lemma chopFromSCSS_one_output_per_rule_witness :
  match Chop.chopFromSCSS MoreSamples.scssEnv "sheet/pokesprite.scss" Sample.emptyWorld with
  | IO.Returned wd' => Extra.outputs wd' = 3%nat
  | IO.Panicked wd' => (0 <= Extra.outputs wd' <= 3)%nat /\ (0 < 3)%nat
  | IO.Exited _ _ => False
  end.
Proof.
  apply (chopFromSCSS_one_output_per_rule MoreSamples.scssEnv "sheet/pokesprite.scss"
           MoreSamples.stylesheet "png" Sample.sheetImage Sample.emptyWorld);
    reflexivity.
Defined.

(** ** The modifiers of a selector *)

Section Modifiers.
Import GoStr Chop Spec.

Lemma form_prefix s :
  HasPrefix s "form-" = true ->
  String.eqb s "color-shiny" = false.
Proof.
  unfold HasPrefix. destruct s as [|a s]; [done|]. cbn [String.prefix].
  destruct (ascii_dec "f" a) as [<-|]; done.
Qed.

Lemma game_family_prefix s :
  HasPrefix s "game-family-" = true ->
  String.eqb s "color-shiny" = false /\ HasPrefix s "form-" = false.
Proof.
  unfold HasPrefix. destruct s as [|a s]; [done|]. cbn [String.prefix].
  destruct (ascii_dec "g" a) as [<-|]; done.
Qed.

Lemma classify_shiny v s :
  shiny (classify v s) = shiny v || String.eqb s "color-shiny".
Proof.
  unfold classify. destruct (String.eqb s "color-shiny"); [by rewrite orb_true_r|].
  rewrite orb_false_r. by repeat case_match.
Qed.

Lemma classify_form v s :
  form (classify v s)
  = if HasPrefix s "form-" then TrimPrefix s "form-" else form v.
Proof.
  unfold classify. destruct (HasPrefix s "form-") eqn:Hf.
  - by rewrite (form_prefix s Hf).
  - by repeat case_match.
Qed.

Lemma classify_gameFamily v s :
  gameFamily (classify v s)
  = if HasPrefix s "game-family-" then TrimPrefix s "game-family-" else gameFamily v.
Proof.
  unfold classify. destruct (HasPrefix s "game-family-") eqn:Hg.
  - destruct (game_family_prefix s Hg) as [-> ->]. done.
  - by repeat case_match.
Qed.

Lemma resolve_shiny segs : forall v,
  shiny (fold_left classify segs v) = true
  <-> shiny v = true \/ "color-shiny" ∈ segs.
Proof.
  induction segs as [|s segs IH]; intros v; cbn [fold_left].
  - rewrite elem_of_nil. tauto.
  - rewrite IH, classify_shiny, orb_true_iff, String.eqb_eq, elem_of_cons.
    intuition congruence.
Qed.

(** A field that is set by the segments with a property, and left alone by
    the others, holds what the last such segment gave. *)
Lemma resolve_last (field : Identity -> string) (test : string -> bool)
    (value : string -> string) :
  (forall v s, field (classify v s) = if test s then value s else field v) ->
  forall segs v,
    field (fold_left classify segs v)
    = default (field v) (value <$> last (filter (fun s => test s = true) segs)).
Proof.
  intros Hfield. induction segs as [|s segs IH]; intros v; [done|].
  cbn [fold_left]. rewrite IH, Hfield, filter_cons.
  destruct (test s) eqn:Hs.
  - rewrite decide_True by done. rewrite last_cons. by destruct (last _).
  - by rewrite decide_False by done.
Qed.

Lemma HasSuffix_append a b : HasSuffix (a +:+ b) b = true.
Proof.
  unfold HasSuffix. rewrite append_length.
  replace (String.length b <=? String.length a + String.length b)%nat with true
    by (symmetry; apply Nat.leb_le; lia).
  replace (String.length a + String.length b - String.length b)%nat
    with (String.length a) by lia.
  cbn [andb]. apply String.eqb_eq.
  induction a as [|x a IH]; cbn [String.length].
  - rewrite append_empty_l. clear. induction b as [|y b IH]; [done|].
    cbn [String.length String.substring]. by rewrite IH.
  - by rewrite append_cons.
Qed.

Lemma filenameOf_empty v : filenameOf v = "" <-> id v = "".
Proof.
  unfold filenameOf. destruct (String.eqb_spec (id v) ""); [done|].
  split; [|done]. destruct (String.eqb (id v) "ball-love"); [done|].
  intros H. apply (f_equal String.length) in H.
  rewrite append_length in H. simpl in H. lia.
Qed.

Lemma filenameOf_png v : filenameOf v <> "" -> HasSuffix (filenameOf v) ".png" = true.
Proof.
  unfold filenameOf. destruct (String.eqb (id v) ""); [done|].
  destruct (String.eqb (id v) "ball-love"); [done|].
  intros _. apply HasSuffix_append.
Qed.

End Modifiers.

(** X10.  The modifiers of a selector are read from all of its segments,
    wherever they stand: the identity is shiny exactly when one segment is
    [color-shiny]; its form is what follows [form-] in the last segment with
    that prefix, and its game family what follows [game-family-] in the last
    segment with that prefix; without such a segment the field is empty. *)
Theorem resolve_modifiers parts :
  let segs := GoStr.Split parts "." in
  (Chop.shiny (Chop.resolve parts) = true <-> "color-shiny" ∈ segs)
  /\ Chop.form (Chop.resolve parts)
     = default "" ((fun s => GoStr.TrimPrefix s "form-")
                   <$> last (filter (fun s => GoStr.HasPrefix s "form-" = true) segs))
  /\ Chop.gameFamily (Chop.resolve parts)
     = default "" ((fun s => GoStr.TrimPrefix s "game-family-")
                   <$> last (filter (fun s => GoStr.HasPrefix s "game-family-" = true)
                               segs)).
Proof.
  intros segs. unfold Chop.resolve. fold segs. split; [|split].
  - rewrite resolve_shiny. cbn [Chop.shiny Chop.noIdentity]. intuition congruence.
  - apply (resolve_last Chop.form (fun s => GoStr.HasPrefix s "form-")
             (fun s => GoStr.TrimPrefix s "form-") classify_form).
  - apply (resolve_last Chop.gameFamily (fun s => GoStr.HasPrefix s "game-family-")
             (fun s => GoStr.TrimPrefix s "game-family-") classify_gameFamily).
Qed.

(** X11.  A selector gives no file name exactly when it has no plain
    segment or its last plain segment is empty, as after a trailing dot;
    every name it does give ends in [.png]. *)
Theorem scssSelectorToFilename_empty parts :
  (Chop.scssSelectorToFilename parts = ""
   <-> default "" (last (filter (fun s => Spec.baseSegment s = true)
                           (GoStr.Split parts "."))) = "")
  /\ (Chop.scssSelectorToFilename parts <> ""
      -> GoStr.HasSuffix (Chop.scssSelectorToFilename parts) ".png" = true).
Proof.
  unfold Chop.scssSelectorToFilename. split.
  - rewrite filenameOf_empty. unfold Chop.resolve. by rewrite resolve_id.
  - apply filenameOf_png.
Qed.

Lemma scssSelectorToFilename_empty_witness :
  Chop.scssSelectorToFilename "001." = ""
  /\ GoStr.HasSuffix (Chop.scssSelectorToFilename "001.color-shiny") ".png" = true.
Proof.
  split.
  - apply (scssSelectorToFilename_empty "001."). reflexivity.
  - apply (scssSelectorToFilename_empty "001.color-shiny"). vm_compute. congruence.
Defined.

(** ** Printing and reading numbers *)

Section Numerals.
Import GoInt GoStr Regexp Spec Extra.

Lemma digits_of_uint d : allChars digit (NilEmpty.string_of_uint d) = true.
Proof. induction d; simpl; done. Qed.

Lemma digits_of_uint_nonempty d :
  NilZero.string_of_uint d <> "" /\ allChars digit (NilZero.string_of_uint d) = true.
Proof.
  destruct d; [done | ..]; (split; [done|]; apply (digits_of_uint (_ d))).
Qed.

Lemma value_of_uint d : decimalValue (NilZero.string_of_uint d) = Z.of_uint d.
Proof.
  unfold decimalValue.
  destruct d; [done | ..]; unfold NilZero.string_of_uint; by rewrite NilEmpty.usu.
Qed.

Lemma allChars_app c a b :
  allChars c (a +:+ b) = allChars c a && allChars c b.
Proof.
  induction a as [|x a IH]; [done|]. rewrite append_cons. simpl.
  by rewrite IH, andb_assoc.
Qed.

Lemma digits_zeros k : allChars digit (zeros k) = true.
Proof. induction k; [done|]. simpl. exact IHk. Qed.

Lemma zeros_length k : String.length (zeros k) = k.
Proof.
  induction k; [done|]. change (zeros (S k)) with (String "0" (zeros k)).
  cbn [String.length]. by rewrite IHk.
Qed.

Lemma value_zeros k s :
  allChars digit s = true -> decimalValue (zeros k +:+ s) = decimalValue s.
Proof.
  intros Hs. induction k as [|k IH]; [done|].
  change (zeros (S k)) with (String "0" (zeros k)). rewrite append_cons.
  revert IH. unfold decimalValue. cbn [NilEmpty.uint_of_string].
  assert (allChars digit (zeros k +:+ s) = true) as Hall
      by (by rewrite allChars_app, digits_zeros).
  destruct (digits_parse _ Hall) as [d ->]. cbn. by intros <-.
Qed.

(** A padded numeral reads as the number itself. *)
Lemma Atoi_padded k d :
  Z.of_uint d <= max_int ->
  Atoi (zeros k +:+ NilZero.string_of_uint d) = Z.of_uint d.
Proof.
  intros Hfit. destruct (digits_of_uint_nonempty d) as [Hne Hd].
  rewrite Atoi_digits.
  - rewrite value_zeros, value_of_uint by done. lia.
  - intros H. apply (f_equal String.length) in H. rewrite append_length in H.
    destruct (NilZero.string_of_uint d); [done|]. simpl in H. lia.
  - by rewrite allChars_app, digits_zeros.
Qed.

Lemma Atoi_minus_padded k d :
  min_int <= - Z.of_uint d ->
  Atoi ("-" +:+ zeros k +:+ NilZero.string_of_uint d) = - Z.of_uint d.
Proof.
  intros Hfit. destruct (digits_of_uint_nonempty d) as [Hne Hd].
  rewrite append_cons, append_empty_l.
  pose proof (value_zeros k _ Hd) as Hv. rewrite value_of_uint in Hv.
  unfold decimalValue in Hv. unfold Atoi.
  destruct (zeros k +:+ NilZero.string_of_uint d) as [|a body] eqn:Hbody.
  { apply (f_equal String.length) in Hbody. rewrite append_length in Hbody.
    destruct (NilZero.string_of_uint d); [done|]. simpl in Hbody. lia. }
  destruct (NilEmpty.uint_of_string (String a body)) as [d'|] eqn:Hparse.
  - rewrite Hv. lia.
  - assert (allChars digit (String a body) = true) as Hall
        by (by rewrite <- Hbody, allChars_app, digits_zeros).
    destruct (digits_parse _ Hall) as [d' Hd']. congruence.
Qed.

Lemma Sprintf_03d_reads z : in_range z -> Atoi (Sprintf_03d z) = z.
Proof.
  intros [Hlo Hhi]. pose proof (DecimalZ.of_to z) as Hz. unfold Sprintf_03d.
  destruct (Z.to_int z) as [d|d]; cbn [Z.of_int] in Hz.
  - rewrite Atoi_padded; lia.
  - rewrite Atoi_minus_padded; lia.
Qed.

Lemma Sprintf_03d_width z : (3 <= String.length (Sprintf_03d z))%nat.
Proof.
  unfold Sprintf_03d. destruct (Z.to_int z) as [d|d];
    rewrite !append_length, zeros_length; simpl; lia.
Qed.

Lemma Itoa_reads z : in_range z -> Atoi (Itoa z) = z.
Proof.
  intros [Hlo Hhi]. pose proof (DecimalZ.of_to z) as Hz. unfold Itoa.
  destruct (Z.to_int z) as [d|d]; cbn [Z.of_int NilZero.string_of_int] in *.
  - rewrite <- Hz. apply (Atoi_padded 0). lia.
  - change (String "-" (NilZero.string_of_uint d))
      with ("-" +:+ zeros 0 +:+ NilZero.string_of_uint d).
    rewrite Atoi_minus_padded; lia.
Qed.

End Numerals.

(** X12.  The zero-padded id of a grid file name loses nothing: it is at
    least three characters wide, and reading it back as a decimal number
    gives the id, also when the id is negative or has more than three
    digits. *)
Theorem Sprintf_03d_round_trip z :
  GoInt.in_range z ->
  GoStr.Atoi (GoStr.Sprintf_03d z) = z
  /\ (3 <= String.length (GoStr.Sprintf_03d z))%nat.
Proof.
  intros Hz. split; [by apply Sprintf_03d_reads | apply Sprintf_03d_width].
Qed.

Lemma Sprintf_03d_round_trip_witness :
  GoStr.Atoi (GoStr.Sprintf_03d (-7)) = -7
  /\ (3 <= String.length (GoStr.Sprintf_03d (-7)))%nat.
Proof.
  apply (Sprintf_03d_round_trip (-7)). unfold GoInt.in_range. vm_compute.
  split; discriminate.
Defined.



(** ** The keys of the position table *)

Section Keys.
Import GoStr Regexp Positions.

Lemma fold_insert_dom rules : forall positions : gmap string SpritePosition,
  dom (fold_left (fun ps m => <[keyOf m := positionOf m]> ps) rules positions)
  = dom positions ∪ list_to_set (keyOf <$> rules).
Proof.
  induction rules as [|m rules IH]; intros positions; cbn [fold_left].
  - cbn. by rewrite (right_id_L ∅ (∪)).
  - rewrite IH, dom_insert_L. cbn [fmap list_fmap list_to_set].
    by rewrite (comm_L (∪) {[keyOf m]} (dom positions)), (assoc_L (∪)).
Qed.

Lemma extract_dom scss :
  dom (fst (extractSpritePositions scss))
  = list_to_set (snd (extractSpritePositions scss)).
Proof.
  unfold extractSpritePositions. rewrite extract_fold. cbn [fst snd].
  by rewrite fold_insert_dom, dom_empty_L, (left_id_L ∅ (∪)).
Qed.

Lemma remove_dups_shorter (l : list string) :
  (length (remove_dups l) <= length l)%nat.
Proof.
  induction l as [|x l IH]; [done|]. cbn [remove_dups length].
  destruct (decide_rel elem_of x l); cbn [length]; lia.
Qed.

Lemma extract_size scss :
  size (fst (extractSpritePositions scss))
  = length (remove_dups (snd (extractSpritePositions scss))).
Proof.
  rewrite <- (size_dom (D := gset string)), extract_dom.
  rewrite <- (size_list_to_set (C := gset string) (remove_dups _))
    by apply NoDup_remove_dups.
  f_equal. apply set_eq. intros k.
  by rewrite !elem_of_list_to_set, elem_of_remove_dups.
Qed.

End Keys.

(** X14.  The mapping and the order sequence that the parser of
    [positions] returns have the same keys: a key is in the order exactly
    when the mapping has data for it.  The size of the mapping is the number
    of distinct keys of the order. *)
Theorem extractSpritePositions_keys scss :
  let positions := fst (Positions.extractSpritePositions scss) in
  let order := snd (Positions.extractSpritePositions scss) in
  (forall k, k ∈ order <-> is_Some (positions !! k))
  /\ size positions = length (remove_dups order)
  /\ (size positions <= length order)%nat.
Proof.
  intros positions order. split; [|split].
  - intros k. rewrite <- elem_of_dom. unfold positions. rewrite extract_dom.
    by rewrite elem_of_list_to_set.
  - apply extract_size.
  - unfold positions. rewrite extract_size. apply remove_dups_shorter.
Qed.

(** ** The command [positions] *)

Section PositionsCommand.
Import GoStr Regexp Spec Positions PositionsCmd.


Lemma fold_WriteString l : forall b,
  fold_left WriteString l b = b +:+ fold_right append "" l.
Proof.
  induction l as [|s l IH]; intros b; cbn [fold_left fold_right].
  - by rewrite append_empty_r.
  - rewrite IH. unfold WriteString. by rewrite append_assoc.
Qed.

Lemma fold_entries (positions : gmap string SpritePosition) order : forall b,
  fold_left (fun b key =>
               WriteString b (entryLine key (default zero (positions !! key))))
    order b
  = b +:+ fold_right append ""
            ((fun key => entryLine key (default zero (positions !! key))) <$> order).
Proof.
  induction order as [|key order IH]; intros b; cbn [fold_left fold_right fmap list_fmap].
  - by rewrite append_empty_r.
  - rewrite IH. unfold WriteString. by rewrite append_assoc.
Qed.

Lemma tableText_parts positions order :
  tableText positions order
  = fold_right append "" heading
    +:+ fold_right append ""
          ((fun key => entryLine key (default zero (positions !! key))) <$> order)
    +:+ "};" +:+ nl.
Proof.
  unfold tableText. rewrite fold_entries, fold_WriteString. unfold WriteString.
  by rewrite append_empty_l, !append_assoc.
Qed.

Lemma last_filter_elem {A : Type} (P : A -> Prop) `{forall x, Decision (P x)}
    (l : list A) (x : A) :
  x ∈ l -> P x -> is_Some (last (filter P l)).
Proof.
  intros Hx HP. apply last_is_Some. intros Hnil.
  assert (x ∈ filter P l) as Hin by (by apply list_elem_of_filter).
  rewrite Hnil in Hin. by apply elem_of_nil in Hin.
Qed.

(** The data under the key of a rule is that of the last rule with that
    key. *)
Lemma lookup_lastRule rules m :
  m ∈ rules ->
  fold_left (fun ps m => <[keyOf m := positionOf m]> ps) rules
    (∅ : gmap string SpritePosition) !! keyOf m
  = Some (positionOf (lastRule rules m)).
Proof.
  intros Hm. rewrite fold_insert_lookup. unfold lastRule.
  destruct (last_filter_elem (fun m' => keyOf m' = keyOf m) rules m Hm eq_refl)
    as [m' ->].
  done.
Qed.

Lemma plain_quoteBytes s : allChars plainChar s = true -> quoteBytes s = s.
Proof.
  induction s as [|a s IH]; [done|]. cbn [allChars quoteBytes].
  intros [Ha Hs]%andb_prop. rewrite IH by done.
  unfold plainChar in Ha. unfold quoteByte.
  apply andb_prop in Ha as [Ha H92]. apply andb_prop in Ha as [Ha H34].
  apply negb_true_iff in H92, H34. rewrite H92, H34, Ha. done.
Qed.

Lemma plain_Quote s : allChars plainChar s = true -> Quote s = quote +:+ s +:+ quote.
Proof. intros Hs. unfold Quote. by rewrite plain_quoteBytes. Qed.

Lemma allChars_weaken (c c' : ascii -> bool) s :
  (forall a, c a = true -> c' a = true) ->
  allChars c s = true -> allChars c' s = true.
Proof.
  intros Hc. induction s as [|a s IH]; [done|]. cbn [allChars].
  intros [Ha Hs]%andb_prop. by rewrite (Hc a Ha), IH.
Qed.

Lemma digit_plain a : digit a = true -> plainChar a = true.
Proof. destruct a as [[] [] [] [] [] [] [] []]; done. Qed.

Lemma nameChar_plain a : nameChar a = true -> plainChar a = true.
Proof. destruct a as [[] [] [] [] [] [] [] []]; done. Qed.

Lemma plain_Itoa z : allChars plainChar (Itoa z) = true.
Proof.
  unfold Itoa. destruct (Z.to_int z) as [d|d]; cbn [NilZero.string_of_int].
  - apply (allChars_weaken digit); [exact digit_plain|].
    apply digits_of_uint_nonempty.
  - cbn [allChars]. apply (allChars_weaken digit); [exact digit_plain|].
    apply digits_of_uint_nonempty.
Qed.

Lemma plain_signed s : Extra.isSignedNumber s -> allChars plainChar s = true.
Proof.
  intros (t & [_ Ht] & [->| ->]).
  - by apply (allChars_weaken digit); [exact digit_plain|].
  - rewrite append_cons, append_empty_l. cbn [allChars].
    by apply (allChars_weaken digit); [exact digit_plain|].
Qed.

(** The offsets that the pattern of [positions] captures. *)
Lemma lineRE_offsets line m :
  FindStringSubmatch 8 lineRE line = Some m ->
  Extra.isSignedNumber (sub m 7) /\ Extra.isSignedNumber (sub m 8).
Proof.
  intros Hm. split.
  all: match goal with
       | |- ?Q (sub _ ?n) =>
           apply (FindStringSubmatch_sets 8 lineRE n Q line m);
             [|reflexivity|lia|exact Hm]
       end.
  all: cbn; repeat match goal with |- _ /\ _ => split end; try done;
    intros _ s cs s' cs' H.
  all: by apply signedNumber_takes in H.
Qed.

Lemma plain_keyOf line m :
  FindStringSubmatch 8 lineRE line = Some m -> allChars plainChar (keyOf m) = true.
Proof.
  intros (_ & Hform & Hfamily)%lineRE_captures. rewrite keyOf_formula.
  assert (allChars plainChar (sub m 2) = true) as H2.
  { destruct Hform as [->|H]; [done|]. by apply (allChars_weaken nameChar);
      [exact nameChar_plain|]. }
  assert (allChars plainChar (sub m 3) = true) as H3.
  { destruct Hfamily as [->|H]; [done|]. by apply (allChars_weaken nameChar);
      [exact nameChar_plain|]. }
  rewrite !allChars_app, plain_Itoa.
  destruct (String.eqb (sub m 2) ""), (String.eqb (sub m 3) ""),
    (String.eqb (sub m 4) "shiny");
    rewrite ?allChars_app, ?H2, ?H3; done.
Qed.

Lemma plain_position line m :
  FindStringSubmatch 8 lineRE line = Some m ->
  allChars plainChar (BackgroundPosition (positionOf m)) = true.
Proof.
  intros [H7 H8]%lineRE_offsets. unfold positionOf. cbn [BackgroundPosition].
  by rewrite !allChars_app, (plain_signed _ H7), (plain_signed _ H8).
Qed.

End PositionsCommand.


(** X16.  When the stylesheet can be read and the output file written,
    [positions] returns after five lines on standard output, the third of
    which gives the number of distinct keys of the matched rules, and the
    one file it has written is the table of the parsed stylesheet at the
    output path. *)
Theorem positions_main_success env args scssPath outPath raw wd :
  (length args = 1%nat /\ scssPath = "./output/pokesprite.scss"
   /\ outPath = "./output/sprite-positions.ts")
  \/ (length args = 3%nat /\ scssPath = nth 1 args "" /\ outPath = nth 2 args "") ->
  PositionsCmd.ReadFile env scssPath = inl raw ->
  let positions := fst (Positions.extractSpritePositions raw) in
  let order := snd (Positions.extractSpritePositions raw) in
  let content := PositionsCmd.tableText positions order in
  PositionsCmd.WriteFile env outPath content = None ->
  PositionsCmd.main env args wd
  = PositionsCmd.Returned
      {| PositionsCmd.stdout :=
           PositionsCmd.stdout wd
           ++ [ "Reading SCSS file...";
                "Extracting sprite positions...";
                "Found " +:+ GoStr.Itoa (Z.of_nat (length (remove_dups order)))
                  +:+ " sprite positions";
                "Writing output file...";
                "Successfully generated " +:+ outPath ];
         PositionsCmd.stderr := PositionsCmd.stderr wd;
         PositionsCmd.disk := PositionsCmd.disk wd ++ [(outPath, content)] |}.
Proof.
  intros Hargs Hraw positions order content Hwrite.
  unfold PositionsCmd.main.
  assert (match length args with
          | 1%nat => Some ("./output/pokesprite.scss", "./output/sprite-positions.ts")
          | 3%nat => Some (nth 1 args "", nth 2 args "")
          | _ => None
          end = Some (scssPath, outPath)) as ->.
  { by destruct Hargs as [(-> & -> & ->)|(-> & -> & ->)]. }
  rewrite Hraw.
  rewrite (surjective_pairing (Positions.extractSpritePositions raw)).
  cbn beta iota. unfold PositionsCmd.writeTS.
  change (PositionsCmd.tableText _ _) with content. rewrite Hwrite.
  rewrite extract_size.
  unfold PositionsCmd.println, PositionsCmd.store.
  cbn [PositionsCmd.stdout PositionsCmd.stderr PositionsCmd.disk].
  by rewrite <- !app_assoc.
Qed.

Lemma positions_main_success_witness :
  PositionsCmd.main PositionsSample.env ["positions"] PositionsSample.emptyWorld
  = PositionsCmd.Returned
      {| PositionsCmd.stdout :=
           [ "Reading SCSS file...";
             "Extracting sprite positions...";
             "Found 1 sprite positions";
             "Writing output file...";
             "Successfully generated ./output/sprite-positions.ts" ];
         PositionsCmd.stderr := [];
         PositionsCmd.disk :=
           [("./output/sprite-positions.ts",
             PositionsCmd.tableText
               (fst (Positions.extractSpritePositions Sample.twice))
               (snd (Positions.extractSpritePositions Sample.twice)))] |}.
Proof.
  apply (positions_main_success PositionsSample.env ["positions"]
           "./output/pokesprite.scss" "./output/sprite-positions.ts" Sample.twice
           PositionsSample.emptyWorld).
  - left. repeat split.
  - reflexivity.
  - reflexivity.
Defined.

(** X17.  The table [positions] writes has, between its heading and its
    closing line, one entry for every matched rule of the stylesheet, in
    line order.  The entry of a rule shows the key of the rule with the
    size and the offsets of the last rule that has this key: a key that
    several rules give is written once for each of them, every time with
    the same data. *)
Theorem tableText_of_rules scss :
  let rules :=
    omap (Regexp.FindStringSubmatch 8 Positions.lineRE) (GoStr.Split scss Chop.newline) in
  PositionsCmd.tableText (fst (Positions.extractSpritePositions scss))
    (snd (Positions.extractSpritePositions scss))
  = fold_right append "" PositionsCmd.heading
    +:+ fold_right append ""
          ((fun m => PositionsCmd.entryLine (Positions.keyOf m)
                       (Positions.positionOf (PositionsCmd.lastRule rules m)))
           <$> rules)
    +:+ "};" +:+ PositionsCmd.nl.
Proof.
  intros rules. rewrite tableText_parts. do 2 f_equal. f_equal.
  unfold Positions.extractSpritePositions. rewrite extract_fold. cbn [fst snd].
  fold rules. rewrite app_nil_l, <- list_fmap_compose.
  apply Forall_fmap_ext, Forall_forall. intros m Hm. cbn [compose].
  by rewrite lookup_lastRule.
Qed.

(** X18.  The keys and the offsets of matched rules are made of characters
    that the quoting of [writeTS] copies: in the table they stand between
    two quotation marks as they are, without any escape sequence. *)
Theorem table_strings_are_plain line m :
  Regexp.FindStringSubmatch 8 Positions.lineRE line = Some m ->
  PositionsCmd.Quote (Positions.keyOf m)
  = PositionsCmd.quote +:+ Positions.keyOf m +:+ PositionsCmd.quote
  /\ PositionsCmd.Quote (Positions.BackgroundPosition (Positions.positionOf m))
     = PositionsCmd.quote +:+ Positions.BackgroundPosition (Positions.positionOf m)
       +:+ PositionsCmd.quote.
Proof.
  intros Hm. split; apply plain_Quote.
  - by apply (plain_keyOf line).
  - by apply (plain_position line).
Qed.

Lemma table_strings_are_plain_witness :
  PositionsCmd.Quote "pokemon-1" = PositionsCmd.quote +:+ "pokemon-1" +:+ PositionsCmd.quote
  /\ PositionsCmd.Quote "0px -56px"
     = PositionsCmd.quote +:+ "0px -56px" +:+ PositionsCmd.quote.
Proof.
  apply (table_strings_are_plain Sample.rule001
           [".pkicon.pkicon-001 { width: 20px; height: 19px; background-position: 0px -56px; }";
            "001"; ""; ""; ""; "20"; "19"; "0"; "-56"]).
  vm_compute. reflexivity.
Defined.

(** ** Rules the patterns are sure to match *)

Section Reading.
Import GoInt GoStr Regexp Spec Extra.

Lemma dropPrefix_app l rest : dropPrefix l (l +:+ rest) = Some rest.
Proof.
  induction l as [|a l IH]; [by destruct rest|].
  rewrite append_cons. cbn [dropPrefix]. by rewrite Ascii.eqb_refl.
Qed.

Lemma star_reads c t rest k out :
  allChars c t = true -> stops c rest -> k rest = Some out ->
  star c (t +:+ rest) k = Some out.
Proof.
  intros Ht Hrest Hk. induction t as [|a t IH].
  - rewrite append_empty_l. destruct rest as [|b rest]; [done|].
    cbn [star]. cbn [stops] in Hrest. by rewrite Hrest.
  - cbn [allChars] in Ht. apply andb_prop in Ht as [Ha Ht].
    rewrite append_cons. cbn [star]. by rewrite Ha, IH.
Qed.

(** The matcher follows a reading. *)
Lemma matchRe_reads r : forall t rest cs cs' k out,
  reads r t rest cs cs' -> k rest cs' = Some out ->
  matchRe r (t +:+ rest) cs k = Some out.
Proof.
  induction r as [l|c|c|r IH|n r IH|r1 IH1 r2 IH2]; intros t rest cs cs' k out H Hk;
    cbn [reads matchRe] in *.
  - destruct H as [-> ->]. by rewrite dropPrefix_app.
  - destruct H as (Ht & Hrest & ->). by apply star_reads.
  - destruct H as (Hne & Ht & Hrest & ->).
    destruct t as [|a t]; [done|]. cbn [allChars] in Ht.
    apply andb_prop in Ht as [Ha Ht]. rewrite append_cons, Ha.
    by apply star_reads.
  - destruct H as [H|(-> & -> & Hnone)].
    + by rewrite (IH t rest cs cs' k out H Hk).
    + by rewrite append_empty_l, Hnone.
  - destruct H as (cs1 & H & ->).
    apply (IH t rest cs cs1); [done|]. by rewrite taken_app.
  - destruct H as (t1 & t2 & cs1 & -> & H1 & H2).
    rewrite append_assoc. apply (IH1 t1 (t2 +:+ rest) cs cs1); [done|].
    by apply (IH2 t2 rest cs1 cs').
Qed.

Lemma matchAt_reads g r t rest cs' :
  reads r t rest (replicate (S g) "") cs' ->
  matchAt g r (t +:+ rest) = Some (<[0%nat := t]> cs').
Proof.
  intros H. unfold matchAt.
  apply (matchRe_reads r t rest _ cs'); [done|]. by rewrite taken_app.
Qed.

(** No match starts in front of the first dot when the pattern starts with
    a dot. *)
Lemma FindStringSubmatch_skip g l r pre s :
  allChars noDot pre = true ->
  FindStringSubmatch g (Cat (Lit (String "." l)) r) (pre +:+ String "." s)
  = FindStringSubmatch g (Cat (Lit (String "." l)) r) (String "." s).
Proof.
  intros Hpre. induction pre as [|a pre IH]; [done|].
  cbn [allChars] in Hpre. apply andb_prop in Hpre as [Ha Hpre].
  rewrite append_cons. cbn [FindStringSubmatch].
  assert (matchAt g (Cat (Lit (String "." l)) r) (String a (pre +:+ String "." s))
          = None) as ->.
  { unfold matchAt. cbn [matchRe dropPrefix]. unfold noDot in Ha.
    apply negb_true_iff in Ha. rewrite Ascii.eqb_sym in Ha. by rewrite Ha. }
  by apply IH.
Qed.

Lemma FindStringSubmatch_reads g l r pre t rest cs' :
  allChars noDot pre = true ->
  reads (Cat (Lit (String "." l)) r) t rest (replicate (S g) "") cs' ->
  FindStringSubmatch g (Cat (Lit (String "." l)) r) (pre +:+ t +:+ rest)
  = Some (<[0%nat := t]> cs').
Proof.
  intros Hpre H. pose proof (matchAt_reads g _ t rest cs' H) as Hat.
  assert (exists u, t = String "." u) as [u ->].
  { cbn [reads] in H. destruct H as (t1 & t2 & cs1 & -> & [-> _] & _).
    rewrite append_cons. by eexists. }
  rewrite append_cons in *. rewrite FindStringSubmatch_skip by done.
  cbn [FindStringSubmatch]. by rewrite Hat.
Qed.

Lemma Itoa_nonneg z :
  0 <= z -> isNumber (Itoa z) /\ decimalValue (Itoa z) = z.
Proof.
  intros Hz. pose proof (DecimalZ.of_to z) as Hof. unfold Itoa.
  destruct (Z.to_int z) as [d|d] eqn:Hd; cbn [Z.of_int NilZero.string_of_int] in *.
  - split; [apply digits_of_uint_nonempty|]. by rewrite value_of_uint.
  - by destruct z.
Qed.

Lemma Itoa_negative z :
  z < 0 ->
  exists t, Itoa z = "-" +:+ t /\ isNumber t /\ decimalValue t = - z.
Proof.
  intros Hz. pose proof (DecimalZ.of_to z) as Hof. unfold Itoa.
  destruct (Z.to_int z) as [d|d] eqn:Hd; cbn [Z.of_int NilZero.string_of_int] in *.
  - pose proof (of_uint_nonneg d). lia.
  - exists (NilZero.string_of_uint d). split; [done|].
    split; [apply digits_of_uint_nonempty|]. rewrite value_of_uint. lia.
Qed.

Lemma Itoa_signed z : isSignedNumber (Itoa z).
Proof.
  destruct (Z.lt_ge_cases z 0) as [Hz|Hz].
  - destruct (Itoa_negative z Hz) as (t & -> & Ht & _). exists t. auto.
  - exists (Itoa z). split; [by apply Itoa_nonneg | by left].
Qed.

(** The helper of [chop] reads back what [Itoa] prints. *)
Lemma atoi_Itoa z : in_range z -> Chop.atoi (Itoa z) = z.
Proof.
  intros [Hlo Hhi]. unfold Chop.atoi.
  destruct (Z.lt_ge_cases z 0) as [Hz|Hz].
  - destruct (Itoa_negative z Hz) as (t & -> & Ht & Hv).
    rewrite Sscanf_d_minus, Hv by done.
    destruct (Z.leb_spec (- z) (- min_int)); [|lia]. cbn. lia.
  - destruct (Itoa_nonneg z Hz) as [Ht Hv].
    rewrite Sscanf_d_number, Hv by done.
    by destruct (Z.leb_spec z max_int); [|lia].
Qed.

Lemma number_reads t rest cs :
  isNumber t -> stops digit rest -> reads (Plus digit) t rest cs cs.
Proof. intros [Hne Ht] Hrest. by cbn. Qed.

Lemma minus_fails t rest cs k :
  isNumber t -> matchRe (Lit "-") (t +:+ rest) cs k = None.
Proof.
  intros [Hne Ht]. destruct t as [|a t]; [done|].
  cbn [allChars] in Ht. apply andb_prop in Ht as [Ha _].
  rewrite append_cons. cbn [matchRe dropPrefix].
  by destruct a as [[] [] [] [] [] [] [] []].
Qed.

Lemma signedNumber_reads s rest cs :
  isSignedNumber s -> stops digit rest ->
  reads (Cat (Opt (Lit "-")) (Plus digit)) s rest cs cs.
Proof.
  intros (t & Ht & [->| ->]) Hrest; cbn [reads].
  - exists "", t, cs. split; [done|]. split; [|by apply number_reads].
    right. split; [done|]. split; [done|]. intros k. by apply minus_fails.
  - exists "-", t, cs. split; [done|]. split; [by left | by apply number_reads].
Qed.

End Reading.

Section CanonicalRules.
Import GoInt GoStr Regexp IO Spec Extra.

Lemma reads_cat r1 r2 t1 t2 rest cs cs1 cs' :
  reads r1 t1 (t2 +:+ rest) cs cs1 -> reads r2 t2 rest cs1 cs' ->
  reads (Cat r1 r2) (t1 +:+ t2) rest cs cs'.
Proof. intros H1 H2. cbn [reads]. by exists t1, t2, cs1. Qed.

Lemma reads_grp n r t rest cs cs1 :
  reads r t rest cs cs1 -> reads (Grp n r) t rest cs (<[n := t]> cs1).
Proof. intros H. cbn [reads]. by exists cs1. Qed.

Lemma reads_lit l rest cs : reads (Lit l) l rest cs cs.
Proof. by cbn. Qed.

Lemma reads_blank rest cs : stops space rest -> reads (Star space) " " rest cs cs.
Proof. intros H. by cbn. Qed.

Lemma signed_stops (c : ascii -> bool) s rest :
  isSignedNumber s -> c "-"%char = false ->
  (forall a, digit a = true -> c a = false) ->
  stops c (s +:+ rest).
Proof.
  intros (t & [Hne Ht] & Hs) Hminus Hdigit.
  destruct t as [|a t]; [done|]. cbn [allChars] in Ht.
  apply andb_prop in Ht as [Ha _].
  destruct Hs as [->| ->]; rewrite !append_cons; cbn [stops]; auto.
Qed.

Lemma digit_not_space a : digit a = true -> space a = false.
Proof. destruct a as [[] [] [] [] [] [] [] []]; done. Qed.

Lemma blank_before_number s more rest cs :
  isSignedNumber s -> reads (Star space) " " ((s +:+ more) +:+ rest) cs cs.
Proof.
  intros Hs. apply reads_blank. rewrite append_assoc.
  apply signed_stops; [done | done | exact digit_not_space].
Qed.

Lemma isNumber_signed s : isNumber s -> isSignedNumber s.
Proof. intros Hs. exists s. auto. Qed.

(** The pattern of [chopFromSCSS] reads a rule in the form of the comment,
    whatever follows it. *)
Lemma chop_lineRE_reads selector w h x y rest :
  isSelector selector -> 0 <= w -> 0 <= h ->
  reads Chop.lineRE (ruleText selector w h x y) rest (replicate 6 "")
    [""; selector; Itoa w; Itoa h; Itoa x; Itoa y].
Proof.
  intros [Hne Hsel] Hw Hh.
  destruct (Itoa_nonneg w Hw) as [Nw _]. destruct (Itoa_nonneg h Hh) as [Nh _].
  pose proof (Itoa_signed x) as Sx. pose proof (Itoa_signed y) as Sy.
  change (ruleText selector w h x y)
    with (".pkicon.pkicon-" +:+ selector +:+ " " +:+ "{" +:+ " " +:+ "width:" +:+ " "
          +:+ Itoa w +:+ "px;" +:+ " " +:+ "height:" +:+ " " +:+ Itoa h +:+ "px;"
          +:+ " " +:+ "background-position:" +:+ " " +:+ Itoa x +:+ "px" +:+ " "
          +:+ Itoa y +:+ "px;").
  unfold Chop.lineRE. cbn [seq].
  apply reads_cat with (cs1 := replicate 6 ""); [apply reads_lit|].
  apply reads_cat with (cs1 := <[1%nat := selector]> (replicate 6 "")).
  { apply reads_grp. by cbn. }
  apply reads_cat with (cs1 := <[1%nat := selector]> (replicate 6 ""));
    [by apply reads_blank|].
  apply reads_cat with (cs1 := <[1%nat := selector]> (replicate 6 ""));
    [apply reads_lit|].
  apply reads_cat with (cs1 := <[1%nat := selector]> (replicate 6 ""));
    [by apply reads_blank|].
  apply reads_cat with (cs1 := <[1%nat := selector]> (replicate 6 ""));
    [apply reads_lit|].
  apply reads_cat with (cs1 := <[1%nat := selector]> (replicate 6 ""));
    [by apply blank_before_number, isNumber_signed|].
  apply reads_cat
    with (cs1 := <[2%nat := Itoa w]> (<[1%nat := selector]> (replicate 6 ""))).
  { apply reads_grp. by apply number_reads. }
  set (cs2 := <[2%nat := Itoa w]> (<[1%nat := selector]> (replicate 6 ""))).
  apply reads_cat with (cs1 := cs2); [apply reads_lit|].
  apply reads_cat with (cs1 := cs2); [by apply reads_blank|].
  apply reads_cat with (cs1 := cs2); [apply reads_lit|].
  apply reads_cat with (cs1 := cs2);
    [by apply blank_before_number, isNumber_signed|].
  apply reads_cat with (cs1 := <[3%nat := Itoa h]> cs2).
  { apply reads_grp. by apply number_reads. }
  set (cs3 := <[3%nat := Itoa h]> cs2).
  apply reads_cat with (cs1 := cs3); [apply reads_lit|].
  apply reads_cat with (cs1 := cs3); [by apply reads_blank|].
  apply reads_cat with (cs1 := cs3); [apply reads_lit|].
  apply reads_cat with (cs1 := cs3); [by apply blank_before_number|].
  apply reads_cat with (cs1 := <[4%nat := Itoa x]> cs3).
  { apply reads_grp. by apply signedNumber_reads. }
  set (cs4 := <[4%nat := Itoa x]> cs3).
  apply reads_cat with (cs1 := cs4); [apply reads_lit|].
  apply reads_cat with (cs1 := cs4); [by apply blank_before_number|].
  apply reads_cat with (cs1 := <[5%nat := Itoa y]> cs4).
  { apply reads_grp. by apply signedNumber_reads. }
  apply reads_lit.
Qed.

Lemma chop_lineRE_finds pre selector w h x y rest :
  allChars noDot pre = true -> isSelector selector -> 0 <= w -> 0 <= h ->
  FindStringSubmatch 5 Chop.lineRE (pre +:+ ruleText selector w h x y +:+ rest)
  = Some [ruleText selector w h x y; selector; Itoa w; Itoa h; Itoa x; Itoa y].
Proof.
  intros Hpre Hsel Hw Hh.
  apply (FindStringSubmatch_reads 5 "pkicon.pkicon-" _ pre
           (ruleText selector w h x y) rest
           [""; selector; Itoa w; Itoa h; Itoa x; Itoa y] Hpre).
  by apply chop_lineRE_reads.
Qed.

End CanonicalRules.

Lemma scssLine_crops env img pre selector sx sy w h rest wd :
  Spec.allChars Extra.noDot pre = true ->
  Extra.isSelector selector ->
  let name := Chop.scssSelectorToFilename selector in
  name <> "" ->
  0 <= sx -> 0 <= sy -> 0 <= w -> 0 <= h ->
  sx + w <= IO.Dx img <= GoInt.max_int ->
  sy + h <= IO.Dy img <= GoInt.max_int ->
  Chop.NewRGBA_ok env w h = true ->
  Chop.Create_ok env (Chop.Join env "images" name) = true ->
  Chop.Encode_ok env w h = true ->
  Chop.scssLine env img (pre +:+ Extra.ruleText selector w h (- sx) (- sy) +:+ rest) wd
  = IO.Next
      (IO.addFile
         {| IO.fpath := Chop.Join env "images" name;
            IO.fimage := Some {| IO.srcX := sx; IO.srcY := sy;
                                 IO.cropW := w; IO.cropH := h |} |} wd).
Proof.
  intros Hpre Hsel name Hname Hsx Hsy Hw Hh [Hx HDx] [Hy HDy] Hnew Hcreate Hencode.
  unfold Chop.scssLine. rewrite chop_lineRE_finds by done.
  change (Regexp.sub _ 1) with selector. change (Regexp.sub _ 2) with (GoStr.Itoa w).
  change (Regexp.sub _ 3) with (GoStr.Itoa h).
  change (Regexp.sub _ 4) with (GoStr.Itoa (- sx)).
  change (Regexp.sub _ 5) with (GoStr.Itoa (- sy)).
  assert (forall z, 0 <= z <= GoInt.max_int -> GoInt.in_range z) as Hin
      by (unfold GoInt.in_range, GoInt.min_int; intros; lia).
  assert (forall z, 0 <= z <= GoInt.max_int -> GoInt.in_range (- z)) as Hin'
      by (unfold GoInt.in_range, GoInt.min_int, GoInt.max_int; intros; lia).
  rewrite !atoi_Itoa by (first [apply Hin; lia | apply Hin'; lia]).
  cbn zeta. fold name. apply String.eqb_neq in Hname. rewrite Hname.
  unfold GoInt.neg, GoInt.add. rewrite !Z.opp_involutive.
  rewrite !(wrap_small sx), !(wrap_small sy) by (apply Hin; lia).
  rewrite !wrap_small by (apply Hin; lia).
  replace (sx <? 0) with false by (symmetry; apply Z.ltb_ge; lia).
  replace (sy <? 0) with false by (symmetry; apply Z.ltb_ge; lia).
  replace (sx + w >? IO.Dx img) with false
    by (symmetry; rewrite Z.gtb_ltb; apply Z.ltb_ge; lia).
  replace (sy + h >? IO.Dy img) with false
    by (symmetry; rewrite Z.gtb_ltb; apply Z.ltb_ge; lia).
  cbn [orb]. by rewrite Hnew, Hcreate, Hencode.
Qed.

(** X19.  A rule written as in the comment of [chopFromSCSS], after any
    text without a dot and before any text, whose selector gives a file
    name and whose rectangle lies inside the sheet, is cropped as it says:
    when the image and file operations succeed, one file is written for
    it, named after the selector inside [images], holding the rectangle at
    the negated offsets with the width and the height of the rule. *)
Theorem scssLine_crops_rule env img pre selector sx sy w h rest wd :
  Spec.allChars Extra.noDot pre = true ->
  Extra.isSelector selector ->
  let name := Chop.scssSelectorToFilename selector in
  name <> "" ->
  0 <= sx -> 0 <= sy -> 0 <= w -> 0 <= h ->
  sx + w <= IO.Dx img <= GoInt.max_int ->
  sy + h <= IO.Dy img <= GoInt.max_int ->
  Chop.NewRGBA_ok env w h = true ->
  Chop.Create_ok env (Chop.Join env "images" name) = true ->
  Chop.Encode_ok env w h = true ->
  Chop.scssLine env img (pre +:+ Extra.ruleText selector w h (- sx) (- sy) +:+ rest) wd
  = IO.Next
      (IO.addFile
         {| IO.fpath := Chop.Join env "images" name;
            IO.fimage := Some {| IO.srcX := sx; IO.srcY := sy;
                                 IO.cropW := w; IO.cropH := h |} |} wd).
Proof. exact (scssLine_crops env img pre selector sx sy w h rest wd). Qed.

Lemma scssLine_crops_rule_witness :
  Chop.scssLine Sample.env Sample.sheetImage
    ("  " +:+ Extra.ruleText "025.color-shiny.form-cap" 10 9 (- 3) (- 4) +:+ " }")
    Sample.emptyWorld
  = IO.Next
      (IO.addFile
         {| IO.fpath := "images/025-shiny-cap.png";
            IO.fimage := Some {| IO.srcX := 3; IO.srcY := 4;
                                 IO.cropW := 10; IO.cropH := 9 |} |}
         Sample.emptyWorld).
Proof.
  apply (scssLine_crops_rule Sample.env Sample.sheetImage "  "
           "025.color-shiny.form-cap" 3 4 10 9 " }" Sample.emptyWorld);
    try reflexivity; try lia; try (split; [discriminate | reflexivity]).
  - vm_compute. congruence.
  - vm_compute. split; congruence.
  - vm_compute. split; congruence.
Defined.

Section CanonicalPositions.
Import GoInt GoStr Regexp Spec Extra Positions.

Lemma reads_optional l n c o rest cs :
  partOf c o -> stops c rest -> (o = None -> dropPrefix l rest = None) ->
  reads (Opt (Cat (Lit l) (Grp n (Plus c)))) (optionalPart l o) rest cs
    (match o with Some v => <[n := v]> cs | None => cs end).
Proof.
  intros Ho Hrest Hnone. destruct o as [v|]; cbn [reads optionalPart partOf] in *.
  - left. exists l, v, cs. split; [done|]. split; [done|]. exists cs. by destruct Ho.
  - right. split; [done|]. split; [done|]. intros k. cbn [matchRe].
    by rewrite Hnone.
Qed.

Lemma reads_blank1 rest cs : stops space rest -> reads (Plus space) " " rest cs cs.
Proof. intros H. by cbn. Qed.

Lemma blank1_before_number s more rest cs :
  isSignedNumber s -> reads (Plus space) " " ((s +:+ more) +:+ rest) cs cs.
Proof.
  intros Hs. apply reads_blank1. rewrite append_assoc.
  apply signed_stops; [done | done | exact digit_not_space].
Qed.

Lemma positions_lineRE_reads id form gameFamily color w h x y rest :
  isNumber id -> partOf nameChar form -> partOf nameChar gameFamily ->
  partOf colorChar color -> 0 <= w -> 0 <= h ->
  reads lineRE (positionsRule id form gameFamily color w h x y) rest
    (replicate 9 "")
    [""; id; default "" form; default "" gameFamily; default "" color;
     Itoa w; Itoa h; Itoa x; Itoa y].
Proof.
  intros Hid Hform Hfamily Hcolor Hw Hh.
  destruct (Itoa_nonneg w Hw) as [Nw _]. destruct (Itoa_nonneg h Hh) as [Nh _].
  pose proof (Itoa_signed x) as Sx. pose proof (Itoa_signed y) as Sy.
  change (positionsRule id form gameFamily color w h x y)
    with (".pkicon.pkicon-" +:+ id +:+ optionalPart ".form-" form
          +:+ optionalPart ".game-family-" gameFamily +:+ optionalPart ".color-" color
          +:+ " " +:+ "{" +:+ " " +:+ "width:" +:+ " "
          +:+ Itoa w +:+ "px;" +:+ " " +:+ "height:" +:+ " " +:+ Itoa h +:+ "px;"
          +:+ " " +:+ "background-position:" +:+ " " +:+ Itoa x +:+ "px" +:+ " "
          +:+ Itoa y +:+ "px;" +:+ " " +:+ "}").
  assert (exists cs', reads lineRE
            (".pkicon.pkicon-" +:+ id +:+ optionalPart ".form-" form
             +:+ optionalPart ".game-family-" gameFamily +:+ optionalPart ".color-" color
             +:+ " " +:+ "{" +:+ " " +:+ "width:" +:+ " "
             +:+ Itoa w +:+ "px;" +:+ " " +:+ "height:" +:+ " " +:+ Itoa h +:+ "px;"
             +:+ " " +:+ "background-position:" +:+ " " +:+ Itoa x +:+ "px" +:+ " "
             +:+ Itoa y +:+ "px;" +:+ " " +:+ "}") rest (replicate 9 "") cs'
          /\ cs' = [""; id; default "" form; default "" gameFamily; default "" color;
                    Itoa w; Itoa h; Itoa x; Itoa y]) as (cs' & H & <-); [|exact H].
  eexists. split.
  - unfold lineRE. cbn [seq].
    eapply reads_cat; [apply reads_lit|].
    eapply reads_cat.
    { apply reads_grp. apply number_reads; [done|].
      by destruct form, gameFamily, color. }
    eapply reads_cat.
    { apply reads_optional; [done | by destruct gameFamily, color
                             | intros _; by destruct gameFamily, color]. }
    eapply reads_cat.
    { apply reads_optional; [done | by destruct color | intros _; by destruct color]. }
    eapply reads_cat.
    { apply reads_optional; [done | done | done]. }
    eapply reads_cat; [by apply reads_blank|].
    eapply reads_cat; [apply reads_lit|].
    eapply reads_cat; [by apply reads_blank|].
    eapply reads_cat; [apply reads_lit|].
    eapply reads_cat; [by apply blank_before_number, isNumber_signed|].
    eapply reads_cat; [apply reads_grp; by apply number_reads|].
    eapply reads_cat; [apply reads_lit|].
    eapply reads_cat; [by apply reads_blank|].
    eapply reads_cat; [apply reads_lit|].
    eapply reads_cat; [by apply blank_before_number, isNumber_signed|].
    eapply reads_cat; [apply reads_grp; by apply number_reads|].
    eapply reads_cat; [apply reads_lit|].
    eapply reads_cat; [by apply reads_blank|].
    eapply reads_cat; [apply reads_lit|].
    eapply reads_cat; [by apply blank_before_number|].
    eapply reads_cat; [apply reads_grp; by apply signedNumber_reads|].
    eapply reads_cat; [apply reads_lit|].
    eapply reads_cat; [by apply blank1_before_number|].
    eapply reads_cat; [apply reads_grp; by apply signedNumber_reads|].
    eapply reads_cat; [apply reads_lit|].
    eapply reads_cat; [by apply reads_blank|].
    apply reads_lit.
  - by destruct form, gameFamily, color.
Qed.

Lemma positions_lineRE_finds pre id form gameFamily color w h x y rest :
  allChars noDot pre = true ->
  isNumber id -> partOf nameChar form -> partOf nameChar gameFamily ->
  partOf colorChar color -> 0 <= w -> 0 <= h ->
  FindStringSubmatch 8 lineRE
    (pre +:+ positionsRule id form gameFamily color w h x y +:+ rest)
  = Some [positionsRule id form gameFamily color w h x y; id; default "" form;
          default "" gameFamily; default "" color; Itoa w; Itoa h; Itoa x; Itoa y].
Proof.
  intros Hpre Hid Hform Hfamily Hcolor Hw Hh.
  apply (FindStringSubmatch_reads 8 "pkicon.pkicon-" _ pre
           (positionsRule id form gameFamily color w h x y) rest
           [""; id; default "" form; default "" gameFamily; default "" color;
            Itoa w; Itoa h; Itoa x; Itoa y] Hpre).
  by apply positions_lineRE_reads.
Qed.

End CanonicalPositions.

Lemma extractLine_reads st pre id form gameFamily color w h x y rest :
  Spec.allChars Extra.noDot pre = true ->
  Extra.isNumber id ->
  Extra.partOf Positions.nameChar form ->
  Extra.partOf Positions.nameChar gameFamily ->
  Extra.partOf Positions.colorChar color ->
  0 <= w <= GoInt.max_int -> 0 <= h <= GoInt.max_int ->
  let key := Extra.positionsKey id form gameFamily color in
  Positions.extractLine st
    (pre +:+ Extra.positionsRule id form gameFamily color w h x y +:+ rest)
  = (<[key := {| Positions.Width := w; Positions.Height := h;
                 Positions.BackgroundPosition :=
                   GoStr.Itoa x +:+ "px " +:+ GoStr.Itoa y +:+ "px" |}]> (fst st),
     snd st ++ [key]).
Proof.
  intros Hpre Hid Hform Hfamily Hcolor [Hw Hw'] [Hh Hh'] key.
  unfold Positions.extractLine.
  rewrite positions_lineRE_finds by done.
  assert (Positions.keyOf
            [Extra.positionsRule id form gameFamily color w h x y; id;
             default "" form; default "" gameFamily; default "" color;
             GoStr.Itoa w; GoStr.Itoa h; GoStr.Itoa x; GoStr.Itoa y] = key) as ->.
  { rewrite keyOf_formula. unfold key, Extra.positionsKey.
    change (Regexp.sub _ 1) with id. change (Regexp.sub _ 2) with (default "" form).
    change (Regexp.sub _ 3) with (default "" gameFamily).
    change (Regexp.sub _ 4) with (default "" color).
    do 2 f_equal. f_equal; [|f_equal].
    - destruct form as [f|]; [|done]. destruct Hform as [Hne _].
      apply String.eqb_neq in Hne. cbn. by rewrite Hne.
    - destruct gameFamily as [g|]; [|done]. destruct Hfamily as [Hne _].
      apply String.eqb_neq in Hne. cbn. by rewrite Hne.
    - destruct color as [c|]; cbn.
      + destruct (String.eqb_spec c "shiny") as [->|Hc].
        * by rewrite decide_True.
        * rewrite decide_False; [done|]. congruence.
      + by rewrite decide_False. }
  unfold Positions.positionOf.
  change (Regexp.sub _ 5) with (GoStr.Itoa w). change (Regexp.sub _ 6) with (GoStr.Itoa h).
  change (Regexp.sub _ 7) with (GoStr.Itoa x). change (Regexp.sub _ 8) with (GoStr.Itoa y).
  unfold Positions.atoi.
  rewrite !Itoa_reads by (unfold GoInt.in_range, GoInt.min_int; lia).
  done.
Qed.

(** X20.  A rule written as in the comment on the pattern of [positions],
    after any text without a dot, is taken in as it says: its key is
    [pokemon-] and the number of the id, then the form and the game family
    if it has them, then [-shiny] if its colour is [shiny]; the data under
    the key are its width, its height and its two offsets as written, and
    the key is appended to the order. *)
Theorem extractLine_reads_rule st pre id form gameFamily color w h x y rest :
  Spec.allChars Extra.noDot pre = true ->
  Extra.isNumber id ->
  Extra.partOf Positions.nameChar form ->
  Extra.partOf Positions.nameChar gameFamily ->
  Extra.partOf Positions.colorChar color ->
  0 <= w <= GoInt.max_int -> 0 <= h <= GoInt.max_int ->
  let key := Extra.positionsKey id form gameFamily color in
  Positions.extractLine st
    (pre +:+ Extra.positionsRule id form gameFamily color w h x y +:+ rest)
  = (<[key := {| Positions.Width := w; Positions.Height := h;
                 Positions.BackgroundPosition :=
                   GoStr.Itoa x +:+ "px " +:+ GoStr.Itoa y +:+ "px" |}]> (fst st),
     snd st ++ [key]).
Proof.
  exact (extractLine_reads st pre id form gameFamily color w h x y rest).
Qed.

Lemma extractLine_reads_rule_witness :
  Positions.extractLine (∅, [])
    (Extra.positionsRule "025" (Some "cap") (Some "legends_arceus") (Some "shiny")
       21 20 (- 67) (- 56))
  = (<["pokemon-25-cap-legends_arceus-shiny"
       := {| Positions.Width := 21; Positions.Height := 20;
             Positions.BackgroundPosition := "-67px -56px" |}]> ∅,
     ["pokemon-25-cap-legends_arceus-shiny"]).
Proof.
  apply (extractLine_reads_rule (∅, []) "" "025" (Some "cap") (Some "legends_arceus")
           (Some "shiny") 21 20 (- 67) (- 56) "");
    try reflexivity; try (split; [discriminate | reflexivity]).
  - vm_compute. split; congruence.
  - vm_compute. split; congruence.
Defined.

Section BothCommands.
Import GoInt GoStr Regexp Spec Extra Positions.

Lemma positionsRule_ruleText id form gameFamily color w h x y :
  positionsRule id form gameFamily color w h x y
  = ruleText (positionsSelector id form gameFamily color) w h x y +:+ " }".
Proof.
  unfold positionsRule, ruleText, positionsSelector.
  rewrite !append_assoc. do 12 f_equal.
Qed.

Lemma digit_selectorChar a : digit a = true -> Chop.selectorChar a = true.
Proof. destruct a as [[] [] [] [] [] [] [] []]; done. Qed.

Lemma nameChar_selectorChar a : nameChar a = true -> Chop.selectorChar a = true.
Proof. destruct a as [[] [] [] [] [] [] [] []]; done. Qed.

Lemma colorChar_selectorChar a : colorChar a = true -> Chop.selectorChar a = true.
Proof. destruct a as [[] [] [] [] [] [] [] []]; done. Qed.

Lemma optionalPart_selector l c o :
  allChars Chop.selectorChar l = true ->
  (forall a, c a = true -> Chop.selectorChar a = true) ->
  partOf c o -> allChars Chop.selectorChar (optionalPart l o) = true.
Proof.
  intros Hl Hc Ho. destruct o as [v|]; [|done]. destruct Ho as [_ Hv].
  cbn [optionalPart]. rewrite allChars_app, Hl.
  by apply (allChars_weaken c).
Qed.

Lemma positionsSelector_selector id form gameFamily color :
  isNumber id -> partOf nameChar form -> partOf nameChar gameFamily ->
  partOf colorChar color ->
  isSelector (positionsSelector id form gameFamily color).
Proof.
  intros [Hne Hid] Hform Hfamily Hcolor. split.
  - unfold positionsSelector. destruct id; [done|]. by rewrite append_cons.
  - unfold positionsSelector. rewrite !allChars_app.
    rewrite (allChars_weaken digit Chop.selectorChar id digit_selectorChar Hid).
    rewrite (optionalPart_selector ".form-" nameChar form),
      (optionalPart_selector ".game-family-" nameChar gameFamily),
      (optionalPart_selector ".color-" colorChar color);
      first [done | exact nameChar_selectorChar | exact colorChar_selectorChar].
Qed.

End BothCommands.

(** X21.  The two commands read a rule of the stylesheet alike.  For a rule
    in the form that [positions] documents, lying inside the sheet, the
    image [chop] writes has the width and the height that [positions]
    records under the key of the rule, and it is cut from the sheet at the
    negation of the two offsets that [positions] records. *)
Theorem commands_agree_on_rule env img wd st id form gameFamily color sx sy w h :
  Extra.isNumber id ->
  Extra.partOf Positions.nameChar form ->
  Extra.partOf Positions.nameChar gameFamily ->
  Extra.partOf Positions.colorChar color ->
  let line := Extra.positionsRule id form gameFamily color w h (- sx) (- sy) in
  let name :=
    Chop.scssSelectorToFilename (Extra.positionsSelector id form gameFamily color) in
  let key := Extra.positionsKey id form gameFamily color in
  name <> "" ->
  0 <= sx -> 0 <= sy -> 0 <= w -> 0 <= h ->
  sx + w <= IO.Dx img <= GoInt.max_int ->
  sy + h <= IO.Dy img <= GoInt.max_int ->
  Chop.NewRGBA_ok env w h = true ->
  Chop.Create_ok env (Chop.Join env "images" name) = true ->
  Chop.Encode_ok env w h = true ->
  Chop.scssLine env img line wd
  = IO.Next
      (IO.addFile
         {| IO.fpath := Chop.Join env "images" name;
            IO.fimage := Some {| IO.srcX := sx; IO.srcY := sy;
                                 IO.cropW := w; IO.cropH := h |} |} wd)
  /\ Positions.extractLine st line
     = (<[key := {| Positions.Width := w; Positions.Height := h;
                    Positions.BackgroundPosition :=
                      GoStr.Itoa (- sx) +:+ "px " +:+ GoStr.Itoa (- sy) +:+ "px" |}]>
          (fst st),
        snd st ++ [key]).
Proof.
  intros Hid Hform Hfamily Hcolor line name key Hname Hsx Hsy Hw Hh Hx Hy
    Hnew Hcreate Hencode.
  split.
  - unfold line. rewrite positionsRule_ruleText.
    apply (scssLine_crops env img "" (Extra.positionsSelector id form gameFamily color)
             sx sy w h " }" wd); try done.
    by apply positionsSelector_selector.
  - pose proof (extractLine_reads st "" id form gameFamily color w h (- sx) (- sy) ""
                  eq_refl Hid Hform Hfamily Hcolor) as H.
    rewrite append_empty_l, append_empty_r in H. apply H; lia.
Qed.

Lemma commands_agree_on_rule_witness :
  Chop.scssLine Sample.env Sample.sheetImage
    (Extra.positionsRule "025" (Some "cap") None (Some "shiny") 10 9 (- 3) (- 4))
    Sample.emptyWorld
  = IO.Next
      (IO.addFile
         {| IO.fpath := "images/025-shiny-cap.png";
            IO.fimage := Some {| IO.srcX := 3; IO.srcY := 4;
                                 IO.cropW := 10; IO.cropH := 9 |} |}
         Sample.emptyWorld)
  /\ Positions.extractLine (∅, [])
       (Extra.positionsRule "025" (Some "cap") None (Some "shiny") 10 9 (- 3) (- 4))
     = (<["pokemon-25-cap-shiny"
          := {| Positions.Width := 10; Positions.Height := 9;
                Positions.BackgroundPosition := "-3px -4px" |}]> ∅,
        ["pokemon-25-cap-shiny"]).
Proof.
  apply (commands_agree_on_rule Sample.env Sample.sheetImage Sample.emptyWorld (∅, [])
           "025" (Some "cap") None (Some "shiny") 3 4 10 9);
    try reflexivity; try lia; try (split; [discriminate | reflexivity]).
  - vm_compute. congruence.
  - vm_compute. split; congruence.
  - vm_compute. split; congruence.
Defined.

(** ** The file name of a documented selector *)

Section DocumentedNames.
Import GoStr Regexp Spec Extra Chop.

Lemma Split_cons_plain a s :
  noDot a = true ->
  Split (String a s) "."
  = match Split s "." with
    | h :: t => String a h :: t
    | [] => [String a ""]
    end.
Proof.
  intros Ha. cbn [Split]. unfold noDot in Ha. apply negb_true_iff in Ha.
  by rewrite Ha.
Qed.

Lemma Split_plain s : allChars noDot s = true -> Split s "." = [s].
Proof.
  induction s as [|a s IH]; [done|]. cbn [allChars].
  intros [Ha Hs]%andb_prop. by rewrite Split_cons_plain, IH.
Qed.

Lemma Split_dot s t :
  allChars noDot s = true -> Split (s +:+ String "." t) "." = s :: Split t ".".
Proof.
  induction s as [|a s IH]; [done|]. cbn [allChars].
  intros [Ha Hs]%andb_prop. by rewrite append_cons, Split_cons_plain, IH.
Qed.

(** Splitting at the dots undoes joining by dots. *)
Lemma Split_joinDots segs :
  segs <> [] -> Forall (fun s => allChars noDot s = true) segs ->
  Split (joinDots segs) "." = segs.
Proof.
  induction segs as [|s segs IH]; [done|]. intros _ Hall.
  apply Forall_cons in Hall as [Hs Hall].
  destruct segs as [|s' segs]; [by apply Split_plain|].
  change (joinDots (s :: s' :: segs)) with (s +:+ String "." (joinDots (s' :: segs))).
  by rewrite Split_dot, IH.
Qed.

Lemma positionsSelector_joinDots id form gameFamily color :
  positionsSelector id form gameFamily color
  = joinDots (id :: optionalSegment "form-" form
                 ++ optionalSegment "game-family-" gameFamily
                 ++ optionalSegment "color-" color).
Proof.
  unfold positionsSelector.
  destruct form, gameFamily, color; cbn [optionalPart optionalSegment app joinDots];
    rewrite ?append_empty_r; rewrite ?append_assoc; reflexivity.
Qed.

Lemma digit_noDot a : digit a = true -> noDot a = true.
Proof. destruct a as [[] [] [] [] [] [] [] []]; done. Qed.

Lemma nameChar_noDot a : Positions.nameChar a = true -> noDot a = true.
Proof. destruct a as [[] [] [] [] [] [] [] []]; done. Qed.

Lemma colorChar_noDot a : Positions.colorChar a = true -> noDot a = true.
Proof. destruct a as [[] [] [] [] [] [] [] []]; done. Qed.

Lemma optionalSegment_noDot l c o :
  allChars noDot l = true -> (forall a, c a = true -> noDot a = true) ->
  partOf c o ->
  Forall (fun s => allChars noDot s = true) (optionalSegment l o).
Proof.
  intros Hl Hc Ho. destruct o as [v|]; [|by apply Forall_nil].
  destruct Ho as [_ Hv]. apply Forall_singleton.
  rewrite allChars_app, Hl. by apply (allChars_weaken c).
Qed.

Lemma positionsSelector_segments id form gameFamily color :
  isNumber id -> partOf Positions.nameChar form ->
  partOf Positions.nameChar gameFamily -> partOf Positions.colorChar color ->
  Split (positionsSelector id form gameFamily color) "."
  = id :: optionalSegment "form-" form ++ optionalSegment "game-family-" gameFamily
       ++ optionalSegment "color-" color.
Proof.
  intros [_ Hid] Hform Hfamily Hcolor.
  rewrite positionsSelector_joinDots. apply Split_joinDots; [done|].
  apply Forall_cons. split; [by apply (allChars_weaken digit); [exact digit_noDot|]|].
  rewrite !Forall_app. split; [|split].
  - by apply (optionalSegment_noDot "form-" Positions.nameChar);
      [|exact nameChar_noDot|].
  - by apply (optionalSegment_noDot "game-family-" Positions.nameChar);
      [|exact nameChar_noDot|].
  - by apply (optionalSegment_noDot "color-" Positions.colorChar);
      [|exact colorChar_noDot|].
Qed.

Lemma prefix_app p s : String.prefix p (p +:+ s) = true.
Proof.
  induction p as [|a p IH]; [by destruct s|].
  rewrite append_cons. cbn [String.prefix].
  by destruct (ascii_dec a a).
Qed.

Lemma substring_all s : String.substring 0 (String.length s) s = s.
Proof.
  induction s as [|a s IH]; [done|]. cbn [String.length String.substring].
  by rewrite IH.
Qed.

Lemma TrimPrefix_app p s : TrimPrefix (p +:+ s) p = s.
Proof.
  unfold TrimPrefix. rewrite prefix_app, append_length.
  replace (String.length p + String.length s - String.length p)%nat
    with (String.length s) by lia.
  induction p as [|a p IH]; [apply substring_all|].
  rewrite append_cons. by cbn [String.length String.substring].
Qed.

Lemma number_baseSegment s : isNumber s -> baseSegment s = true.
Proof.
  intros [Hne Hs]. destruct s as [|a s]; [done|]. cbn [allChars] in Hs.
  apply andb_prop in Hs as [Ha _]. unfold baseSegment, HasPrefix.
  cbn [String.eqb String.prefix].
  by destruct a as [[] [] [] [] [] [] [] []].
Qed.

Lemma classify_form_segment v f :
  classify v ("form-" +:+ f)
  = {| id := id v; form := f; gameFamily := gameFamily v; shiny := shiny v |}.
Proof.
  unfold classify. assert (HasPrefix ("form-" +:+ f) "form-" = true) as Hp
      by apply prefix_app.
  by rewrite (form_prefix _ Hp), Hp, TrimPrefix_app.
Qed.

Lemma classify_family_segment v g :
  classify v ("game-family-" +:+ g)
  = {| id := id v; form := form v; gameFamily := g; shiny := shiny v |}.
Proof.
  unfold classify. assert (HasPrefix ("game-family-" +:+ g) "game-family-" = true) as Hp
      by apply prefix_app.
  destruct (game_family_prefix _ Hp) as [-> ->].
  by rewrite Hp, TrimPrefix_app.
Qed.

Lemma classify_color_segment v c :
  classify v ("color-" +:+ c)
  = if String.eqb c "shiny"
    then {| id := id v; form := form v; gameFamily := gameFamily v; shiny := true |}
    else {| id := "color-" +:+ c; form := form v; gameFamily := gameFamily v;
            shiny := shiny v |}.
Proof.
  unfold classify, HasPrefix. rewrite !append_cons, append_empty_l.
  cbn [String.eqb String.prefix Ascii.eqb Bool.eqb].
  destruct (String.eqb c "shiny"); [done|].
  by repeat (destruct (ascii_dec _ _); try done).
Qed.

Lemma resolve_documented id_ form_ gameFamily_ color_ :
  isNumber id_ -> partOf Positions.nameChar form_ ->
  partOf Positions.nameChar gameFamily_ -> partOf Positions.colorChar color_ ->
  resolve (positionsSelector id_ form_ gameFamily_ color_)
  = {| id := match color_ with
             | Some c => if String.eqb c "shiny" then id_ else "color-" +:+ c
             | None => id_
             end;
       form := default "" form_;
       gameFamily := default "" gameFamily_;
       shiny := bool_decide (color_ = Some "shiny") |}.
Proof.
  intros Hid Hform Hfamily Hcolor. unfold resolve.
  rewrite positionsSelector_segments by done.
  cbn [fold_left]. rewrite (classify_base _ _ (number_baseSegment _ Hid)).
  rewrite !fold_left_app.
  destruct form_ as [f|], gameFamily_ as [g|], color_ as [c|];
    cbn [optionalSegment fold_left];
    rewrite ?classify_form_segment, ?classify_family_segment, ?classify_color_segment;
    cbn [id form gameFamily shiny noIdentity default from_option];
    try done.
  all: destruct (String.eqb_spec c "shiny") as [->|Hc];
    [by rewrite bool_decide_eq_true_2
    | rewrite bool_decide_eq_false_2; [done | congruence]].
Qed.

End DocumentedNames.

(** X22.  For a selector in the form that [positions] documents, [chop]
    names the file after the id, then [-shiny] for the colour [shiny], then
    the game family, then the form, and [.png]; the game family stands
    before the form, the other way round than in the key of [positions].
    With any other colour the file is named after the colour segment
    instead of the id. *)
Theorem scssSelectorToFilename_documented id form gameFamily color :
  Extra.isNumber id ->
  Extra.partOf Positions.nameChar form ->
  Extra.partOf Positions.nameChar gameFamily ->
  Extra.partOf Positions.colorChar color ->
  Chop.scssSelectorToFilename (Extra.positionsSelector id form gameFamily color)
  = Extra.documentedName id form gameFamily color.
Proof.
  intros Hid Hform Hfamily Hcolor. unfold Chop.scssSelectorToFilename.
  rewrite resolve_documented by done.
  unfold Chop.filenameOf, Extra.documentedName.
  cbn [Chop.id Chop.form Chop.gameFamily Chop.shiny].
  set (base := match color with
               | Some c => if String.eqb c "shiny" then id else "color-" +:+ c
               | None => id
               end).
  assert (String.eqb base "" = false /\ String.eqb base "ball-love" = false)
    as [-> ->].
  { destruct Hid as [Hne Hd]. destruct id as [|a s]; [done|].
    cbn [Spec.allChars] in Hd. apply andb_prop in Hd as [Ha _].
    assert (String.eqb (String a s) "" = false
            /\ String.eqb (String a s) "ball-love" = false) as Hnum.
    { cbn [String.eqb]. by destruct a as [[] [] [] [] [] [] [] []]. }
    unfold base. destruct color as [c|]; [|done].
    destruct (String.eqb c "shiny"); [done|].
    by rewrite !append_cons. }
  assert (forall o, Extra.partOf Positions.nameChar o ->
            (if negb (String.eqb (default "" o) "") then "-" +:+ default "" o else "")
            = Extra.optionalPart "-" o) as Hpart.
  { intros [v|] Ho; [|done]. destruct Ho as [Hne _].
    apply String.eqb_neq in Hne. cbn. by rewrite Hne. }
  destruct (decide (color = Some "shiny")) as [Hs|Hs].
  - rewrite bool_decide_eq_true_2 by done.
    rewrite <- (Hpart gameFamily Hfamily), <- (Hpart form Hform).
    destruct (negb (String.eqb (default "" gameFamily) "")),
      (negb (String.eqb (default "" form) ""));
      rewrite ?append_assoc, ?append_empty_l, ?append_empty_r; reflexivity.
  - rewrite bool_decide_eq_false_2 by done.
    rewrite <- (Hpart gameFamily Hfamily), <- (Hpart form Hform).
    destruct (negb (String.eqb (default "" gameFamily) "")),
      (negb (String.eqb (default "" form) ""));
      rewrite ?append_assoc, ?append_empty_l, ?append_empty_r; reflexivity.
Qed.

Lemma scssSelectorToFilename_documented_witness :
  Chop.scssSelectorToFilename "025.form-cap.game-family-legends_arceus.color-shiny"
  = "025-shiny-legends_arceus-cap.png".
Proof.
  apply (scssSelectorToFilename_documented "025" (Some "cap") (Some "legends_arceus")
           (Some "shiny")); split; (discriminate || reflexivity).
Defined.
